(** * A shallow embedding of [search_engine.py]

    The development follows the class [SearchEngine]: text normalisation
    (the [re.findall] / [lower] / filter pipeline that appears in both
    [parse_document] and [search]), the index build ([parse_document],
    [build_index]) and query evaluation ([search]).

    Modelling choices.
    - Characters are [ascii]; the character tables ([lower], the regex class
      [\w], the whitespace class of [str.strip]) are the ASCII rows of
      Python's tables.  Code points above 127 are outside the modelled input
      domain: they are kept by [lower] and belong to neither class.  A
      property that depends on the tables is stated for ASCII text
      ([is_ascii]), or over an arbitrary string library ([StrLib],
      [search_on]).
    - Python [set] objects are mutable and are reached by reference
      ([matching_docs = self.inverted_index[term].copy()] followed by the
      in-place [&=]), so posting sets live in a store of set objects and
      the inverted index maps a term to a reference.
    - [Counter] objects of [term_frequency] are only reached through
      [self.term_frequency[term]]; no second reference to one is ever
      created, so they are kept as values.
    - [print] appends a line to [stdout].
    - The iteration order of a Python [set] is not fixed by its contents
      (it depends on how the object was built); a call of [search] takes
      the order of its one iteration as a parameter [set_iter], and a run
      with several calls takes one order per call ([set_iters]). *)

From stdpp Require Import gmap strings list fin_maps sorting pretty.
From Stdlib Require Import Ascii String.

Local Open Scope string_scope.

(** ** Character tables (ASCII) *)

Module Text.

Definition code (c : ascii) : N := N_of_ascii c.

(** [str.lower] on one character: [A-Z] is shifted to [a-z]. *)
Definition lower_char (c : ascii) : ascii :=
  if ((65 <=? code c) && (code c <=? 90))%N
  then ascii_of_N (code c + 32) else c.

(** The class [\w]: letters, digits and the underscore. *)
Definition is_word (c : ascii) : bool :=
  (((48 <=? code c) && (code c <=? 57))
   || ((65 <=? code c) && (code c <=? 90))
   || ((97 <=? code c) && (code c <=? 122))
   || (code c =? 95))%N.

(** The characters removed by [str.strip()]: TAB, LF, VT, FF, CR, the
    separators FS, GS, RS, US and the space. *)
Definition is_space (c : ascii) : bool :=
  (((9 <=? code c) && (code c <=? 13))
   || ((28 <=? code c) && (code c <=? 32)))%N.

Fixpoint lower (s : string) : string :=
  match s with
  | EmptyString => EmptyString
  | String c s' => String (lower_char c) (lower s')
  end.

Fixpoint all_chars (p : ascii → bool) (s : string) : bool :=
  match s with
  | EmptyString => true
  | String c s' => p c && all_chars p s'
  end.

(** [s.lstrip()] *)
Fixpoint lstrip (s : string) : string :=
  match s with
  | EmptyString => EmptyString
  | String c s' => if is_space c then lstrip s' else s
  end.

(** [s.rstrip()]: a character is dropped when it is whitespace and
    everything after it has been dropped. *)
Fixpoint rstrip (s : string) : string :=
  match s with
  | EmptyString => EmptyString
  | String c s' =>
      match rstrip s' with
      | EmptyString => if is_space c then EmptyString else String c EmptyString
      | r => String c r
      end
  end.

(** [s.strip()] *)
Definition strip (s : string) : string := rstrip (lstrip s).

(** The end of a run of word characters: the run, if any, is a match. *)
Definition flush (cur : string) : list string :=
  match cur with
  | EmptyString => []
  | _ => [cur]
  end.

(** The scanner behind [re.findall(r"\b\w+\b", s)].  [cur] is the run of
    word characters read so far.  A match of [\b\w+\b] starts at a word
    character preceded by a non-word character (or the start), and, [\w+]
    being greedy with [\b] required after it, ends where the run ends; the
    scan resumes after the match, so the matches are the maximal runs. *)
Fixpoint scan (cur : string) (s : string) : list string :=
  match s with
  | EmptyString => flush cur
  | String c s' =>
      if is_word c then scan (cur +:+ String c EmptyString) s'
      else flush cur ++ scan EmptyString s'
  end.

Definition findall_words (s : string) : list string := scan EmptyString s.

End Text.

Export Text.

(** ** The engine and the store of set objects *)

(** References to [set] objects. *)
Abbreviation loc := positive (only parsing).

(** The fields set by [__init__] (lines 19-25). *)
Record SearchEngine := mkEngine {
  webpages_dir : string;
  inverted_index : gmap string loc;               (* term -> set(documents) *)
  term_frequency : gmap string (gmap string nat); (* term -> Counter({doc: freq}) *)
  stopwords : gset string;
  documents : list string;
  document_urls : gmap string string;
}.

Record State := mkState {
  heap : gmap loc (gset string);   (* the set objects *)
  self : SearchEngine;
  stdout : list string;            (* the lines printed so far *)
}.

Definition set_heap (h : gmap loc (gset string)) (st : State) : State :=
  mkState h (self st) (stdout st).

Definition set_inverted_index (ix : gmap string loc) (st : State) : State :=
  let e := self st in
  mkState (heap st)
    (mkEngine (webpages_dir e) ix (term_frequency e) (stopwords e)
       (documents e) (document_urls e))
    (stdout st).

Definition set_term_frequency (tf : gmap string (gmap string nat))
    (st : State) : State :=
  let e := self st in
  mkState (heap st)
    (mkEngine (webpages_dir e) (inverted_index e) tf (stopwords e)
       (documents e) (document_urls e))
    (stdout st).

Definition set_documents (ds : list string) (st : State) : State :=
  let e := self st in
  mkState (heap st)
    (mkEngine (webpages_dir e) (inverted_index e) (term_frequency e)
       (stopwords e) ds (document_urls e))
    (stdout st).

(** [_load_stopwords] (lines 27-33). *)
Definition _load_stopwords : gset string :=
  list_to_set
    ["a"; "an"; "the"; "and"; "or"; "but"; "is"; "are"; "was"; "were";
     "in"; "on"; "at"; "to"; "for"; "with"; "by"; "about"; "like";
     "from"; "of"; "as"; "this"; "that"; "these"; "those"; "it"; "its"].

(** [__init__].  [_load_url_mapping] reads a side file; what it loads is
    the parameter [urls]. *)
Definition init (dir : string) (urls : gmap string string) : State :=
  mkState ∅ (mkEngine dir ∅ ∅ _load_stopwords [] urls) [].

(** ** A state monad for the methods *)

Definition M (A : Type) : Type := State → A * State.

#[global] Instance M_ret : MRet M := λ A (a : A) st, (a, st).
#[global] Instance M_bind : MBind M := λ A B (f : A → M B) (m : M A) st,
  let '(a, st') := m st in f a st'.

Definition get_self : M SearchEngine := λ st, (self st, st).

Definition modify (f : State → State) : M unit := λ st, (tt, f st).

(** [print(line)] *)
Definition print (line : string) : M unit :=
  λ st, (tt, mkState (heap st) (self st) (stdout st ++ [line])).

(** The contents of a set object. *)
Definition deref (st : State) (l : loc) : gset string :=
  default ∅ (heap st !! l).

Definition set_read (l : loc) : M (gset string) := λ st, (deref st l, st).

(** A new set object ([set()] or [s.copy()]). *)
Definition set_new (s : gset string) : M loc := λ st,
  let l := fresh (dom (heap st)) in (l, set_heap (<[l := s]> (heap st)) st).

(** [s.copy()] *)
Definition set_copy (l : loc) : M loc := λ st, set_new (deref st l) st.

(** [s.add(x)], in place. *)
Definition set_add (l : loc) (x : string) : M unit := λ st,
  (tt, set_heap (<[l := {[x]} ∪ deref st l]> (heap st)) st).

(** [s &= r], in place on [s]. *)
Definition set_iand (l r : loc) : M unit := λ st,
  (tt, set_heap (<[l := deref st l ∩ deref st r]> (heap st)) st).

(** [term in self.inverted_index] *)
Definition index_contains (term : string) : M bool := λ st,
  (bool_decide (is_Some (inverted_index (self st) !! term)), st).

(** [self.inverted_index[term]] on a [defaultdict(set)]: a missing key is
    first bound to a new empty set. *)
Definition index_getitem (term : string) : M loc := λ st,
  match inverted_index (self st) !! term with
  | Some l => (l, st)
  | None =>
      let '(l, st') := set_new ∅ st in
      (l, set_inverted_index (<[term := l]> (inverted_index (self st'))) st')
  end.

(** [term in self.term_frequency] *)
Definition tf_contains (term : string) : M bool := λ st,
  (bool_decide (is_Some (term_frequency (self st) !! term)), st).

(** [self.term_frequency[term]] on a [defaultdict(Counter)]: a missing key
    is first bound to an empty [Counter]. *)
Definition tf_getitem (term : string) : M (gmap string nat) := λ st,
  match term_frequency (self st) !! term with
  | Some c => (c, st)
  | None => (∅, set_term_frequency (<[term := ∅]> (term_frequency (self st))) st)
  end.

(** [c[doc]] on a [Counter]: a missing key counts 0 and is not inserted. *)
Definition counter_getitem (c : gmap string nat) (doc : string) : nat :=
  default 0 (c !! doc).

(** [self.term_frequency[term][doc] = n]: the [Counter] bound to [term]
    (bound to an empty one first when missing) is updated in place. *)
Definition tf_setitem (term doc : string) (n : nat) : M unit :=
  c ← tf_getitem term;
  modify (λ st,
    set_term_frequency (<[term := <[doc := n]> c]> (term_frequency (self st))) st).

(** ** Normalisation *)

(** Lines 64-69 of [parse_document]:
    [tokens = re.findall(r"\b\w+\b", text.lower())] and the comprehension
    [token not in self.stopwords and len(token) > 1]. *)
Definition document_tokens (sw : gset string) (text : string) : list string :=
  let tokens := findall_words (lower text) in
  filter (λ token, (token ∉ sw) ∧ (1 < String.length token)) tokens.

(** Lines 102-103 of [search]:
    [terms = re.findall(r"\b\w+\b", query.lower())] and the comprehension
    [t not in self.stopwords and len(t) > 1]. *)
Definition query_terms (sw : gset string) (query : string) : list string :=
  let terms := findall_words (lower query) in
  filter (λ t, (t ∉ sw) ∧ (1 < String.length t)) terms.

(** ** [Counter(filtered_tokens)]

    The local tally of [parse_document] is iterated, so it keeps the
    insertion order of a [dict]: a key is appended at its first occurrence
    and its count is incremented afterwards. *)
Fixpoint counter_incr (k : string) (c : list (string * nat)) : list (string * nat) :=
  match c with
  | [] => [(k, 1)]
  | (k', n) :: c' =>
      if decide (k' = k) then (k', S n) :: c' else (k', n) :: counter_incr k c'
  end.

Definition Counter (l : list string) : list (string * nat) :=
  foldl (λ c k, counter_incr k c) [] l.

(** [term_counts[token]] *)
Fixpoint counts_getitem (c : list (string * nat)) (k : string) : nat :=
  match c with
  | [] => 0
  | (k', n) :: c' => if decide (k' = k) then n else counts_getitem c' k
  end.

(** ** [parse_document] *)

(** What lines 56-63 produce: the text of the document, or the exception
    caught at line 80. *)
Inductive extracted :=
  | Text (text : string)
  | Raised (e : string).

(** The body of the loop of lines 73-75, with [n] the value of
    [term_counts[token]]. *)
Definition index_token (n : nat) (token filename : string) : M unit :=
  s ← index_getitem token;
  set_add s filename;;
  tf_setitem token filename n.

(** The loop of lines 73-75; [keys] is what remains of the iteration over
    [term_counts]. *)
Fixpoint index_tokens (term_counts : list (string * nat))
    (keys : list string) (filename : string) : M unit :=
  match keys with
  | [] => mret tt
  | token :: keys' =>
      index_token (counts_getitem term_counts token) token filename;;
      index_tokens term_counts keys' filename
  end.

Definition parse_document (filename : string) (content : extracted) : M bool :=
  match content with
  | Text text =>
      e ← get_self;
      let filtered_tokens := document_tokens (stopwords e) text in
      let term_counts := Counter filtered_tokens in
      index_tokens term_counts term_counts.*1 filename;;
      print ("Indexed document: " +:+ filename +:+ " with "
             +:+ pretty (List.length term_counts) +:+ " unique terms");;
      mret true
  | Raised e =>
      print ("Error parsing " +:+ filename +:+ ": " +:+ e);;
      mret false
  end.

(** ** [build_index] *)

(** [s.endswith(suffix)] *)
Definition endswith (s suffix : string) : bool :=
  let n := String.length s in
  let k := String.length suffix in
  (k <=? n)%nat && String.eqb (String.substring (n - k) k s) suffix.

(** The loop of lines 89-92 over the directory listing; each entry comes
    with what opening and extracting it yields. *)
Fixpoint build_index_loop (listing : list (string * extracted)) : M unit :=
  match listing with
  | [] => mret tt
  | (filename, content) :: rest =>
      (if endswith filename ".html" || endswith filename ".htm" then
         ok ← parse_document filename content;
         if ok : bool then
           modify (λ st, set_documents (documents (self st) ++ [filename]) st)
         else mret tt
       else mret tt);;
      build_index_loop rest
  end.

Definition build_index (listing : list (string * extracted)) : M unit :=
  e ← get_self;
  print ("Building index from documents in '" +:+ webpages_dir e +:+ "'...");;
  modify (set_documents []);;
  build_index_loop listing;;
  e ← get_self;
  print ("Indexing complete. " +:+ pretty (List.length (documents e))
         +:+ " documents indexed with "
         +:+ pretty (size (inverted_index e)) +:+ " unique terms.").

(** ** [search] *)

Definition msg_empty_query : string :=
  "Empty query. Please enter some search terms.".
Definition msg_all_stopwords : string :=
  "Query contains only stopwords. Please use more specific terms.".
Definition msg_term_not_found (term : string) : string :=
  "Term '" +:+ term +:+ "' not found in any document.".
Definition msg_no_match : string :=
  "No documents found matching all query terms.".

(** A loop body either goes on with the loop variable or executes
    [return]. *)
Inductive flow (A R : Type) :=
  | Next (a : A)
  | Return (r : R).
Arguments Next {A R} a.
Arguments Return {A R} r.

(** The loop of lines 111-119. *)
Fixpoint match_terms (terms : list string) (matching_docs : option loc)
    : M (flow (option loc) (list (string * nat))) :=
  match terms with
  | [] => mret (Next matching_docs)
  | term :: rest =>
      present ← index_contains term;
      if present : bool then
        match matching_docs with
        | None =>
            s ← index_getitem term;
            m ← set_copy s;
            match_terms rest (Some m)
        | Some m =>
            s ← index_getitem term;
            set_iand m s;;
            match_terms rest (Some m)
        end
      else
        print (msg_term_not_found term);;
        mret (Return [])
  end.

(** Lines 127-129: [sum(...)] over the generator, left to right from 0. *)
Fixpoint score_terms (terms : list string) (doc : string) (acc : nat) : M nat :=
  match terms with
  | [] => mret acc
  | term :: rest =>
      present ← tf_contains term;
      if present : bool then
        c ← tf_getitem term;
        score_terms rest doc (acc + counter_getitem c doc)
      else score_terms rest doc acc
  end.

(** The loop of lines 126-130 over the documents in iteration order. *)
Fixpoint rank_docs (filtered_terms : list string) (docs : list string)
    (ranked_results : list (string * nat)) : M (list (string * nat)) :=
  match docs with
  | [] => mret ranked_results
  | doc :: docs' =>
      score ← score_terms filtered_terms doc 0;
      rank_docs filtered_terms docs' (ranked_results ++ [(doc, score)])
  end.

(** [list.sort(key=lambda x: x[1], reverse=True)]: a stable sort, larger
    keys first; elements with equal keys keep their order. *)
Fixpoint insert_desc (x : string * nat) (l : list (string * nat))
    : list (string * nat) :=
  match l with
  | [] => [x]
  | y :: l' => if (x.2 <? y.2)%nat then y :: insert_desc x l' else x :: l
  end.

Definition sort_desc (l : list (string * nat)) : list (string * nat) :=
  foldr insert_desc [] l.

Definition search (set_iter : gset string → list string) (query : string)
    : M (list (string * nat)) :=
  if decide (strip query = "") then
    print msg_empty_query;; mret []
  else
    e ← get_self;
    let filtered_terms := query_terms (stopwords e) query in
    match filtered_terms with
    | [] => print msg_all_stopwords;; mret []
    | _ =>
        r ← match_terms filtered_terms None;
        match r with
        | Return res => mret res
        | Next None => print msg_no_match;; mret []
        | Next (Some m) =>
            docs ← set_read m;
            if decide (docs = ∅) then print msg_no_match;; mret []
            else
              ranked_results ← rank_docs filtered_terms (set_iter docs) [];
              mret (sort_desc ranked_results)
        end
    end.

(** ** The string library behind the first lines of [search]

    [str.strip], [str.lower], [re.findall(r"\b\w+\b", s)] and [len] are
    library functions that follow the Unicode tables.  [StrLib] is their
    interface, [ascii_lib] the instance made of the ASCII tables above, and
    [search_on] is [search] (lines 96-133) over an arbitrary instance. *)
Record StrLib := mkStrLib {
  lib_strip : string → string;           (* s.strip() *)
  lib_lower : string → string;           (* s.lower() *)
  lib_findall : string → list string;    (* re.findall(r"\b\w+\b", s) *)
  lib_len : string → nat;                (* len(s) *)
}.

Definition ascii_lib : StrLib := mkStrLib strip lower findall_words String.length.

(** Lines 102-103. *)
Definition query_terms_on (L : StrLib) (sw : gset string) (query : string)
    : list string :=
  let terms := lib_findall L (lib_lower L query) in
  filter (λ t, (t ∉ sw) ∧ (1 < lib_len L t)) terms.

Definition search_on (L : StrLib) (set_iter : gset string → list string)
    (query : string) : M (list (string * nat)) :=
  if decide (lib_strip L query = "") then
    print msg_empty_query;; mret []
  else
    e ← get_self;
    let filtered_terms := query_terms_on L (stopwords e) query in
    match filtered_terms with
    | [] => print msg_all_stopwords;; mret []
    | _ =>
        r ← match_terms filtered_terms None;
        match r with
        | Return res => mret res
        | Next None => print msg_no_match;; mret []
        | Next (Some m) =>
            docs ← set_read m;
            if decide (docs = ∅) then print msg_no_match;; mret []
            else
              ranked_results ← rank_docs filtered_terms (set_iter docs) [];
              mret (sort_desc ranked_results)
        end
    end.

(** ASCII text: every character has a code below 128.  On such text the
    tables of [Text] are Python's. *)
Definition is_ascii (s : string) : bool :=
  all_chars (λ c, (code c <? 128)%N) s.

(** ** Views of a state used in the statements *)

(** The posting set of a term: the set object its index entry refers to. *)
Definition posting (st : State) (term : string) : option (gset string) :=
  inverted_index (self st) !! term ≫= λ l, heap st !! l.

(** The entry of the term-frequency table for a (term, document) pair. *)
Definition frequency (st : State) (term doc : string) : option nat :=
  term_frequency (self st) !! term ≫= λ c, c !! doc.

(** Every index entry refers to an existing set object, and no two terms
    share one. *)
Definition wf (st : State) : Prop :=
  (∀ t l, inverted_index (self st) !! t = Some l → is_Some (heap st !! l))
  ∧ (∀ t1 t2 l, inverted_index (self st) !! t1 = Some l →
       inverted_index (self st) !! t2 = Some l → t1 = t2).

(** Running a sequence of [parse_document] calls. *)
Fixpoint parse_all (calls : list (string * extracted)) (st : State) : State :=
  match calls with
  | [] => st
  | (filename, content) :: rest =>
      parse_all rest (parse_document filename content st).2
  end.

(** The count a [Counter] lookup yields for a (term, document) pair: 0
    when the term or the document has no entry. *)
Definition tf_count (st : State) (term doc : string) : nat :=
  default 0 (frequency st term doc).

(** The sum of the counts of a document over a list of terms. *)
Definition score (st : State) (terms : list string) (doc : string) : nat :=
  sum_list ((λ t, tf_count st t doc) <$> terms).

(** The documents of [acc] that are in the posting set of every term. *)
Definition inter_postings (st : State) (terms : list string)
    (acc : gset string) : gset string :=
  foldl (λ acc t, acc ∩ default ∅ (posting st t)) acc terms.

(** Non-increasing scores. *)
Definition by_score_desc (x y : string * nat) : Prop := (y.2 ≤ x.2)%nat.

(** The number of occurrences of a term in a token stream. *)
Definition occurrences (t : string) (tokens : list string) : nat :=
  List.length (filter (λ x, x = t) tokens).

(** Lowercase word characters: what the tokens of a lowered text are
    made of. *)
Definition lower_word (c : ascii) : bool :=
  is_word c && bool_decide (lower_char c = c).

(** Lines 109-133 of [search] in one piece: the term loop, then the
    documents left, scored and sorted.  [search_with_terms] shows it is
    what [search] runs once the query has terms. *)
Definition search_terms (set_iter : gset string → list string)
    (terms : list string) (st : State) : list (string * nat) * State :=
  let '(r, st1) := match_terms terms None st in
  match r with
  | Return res => (res, st1)
  | Next None => ([], (print msg_no_match st1).2)
  | Next (Some m) =>
      if decide (deref st1 m = ∅) then ([], (print msg_no_match st1).2)
      else (sort_desc ((λ d, (d, score st1 terms d)) <$> set_iter (deref st1 m)), st1)
  end.

(** The corpus of the end-to-end example. *)
Definition corpus_ex : list (string * extracted) :=
  [("docA.html", Text "cloud security threats");
   ("docB.html", Text "cyber attack malware");
   ("docC.html", Text "cloud attack security breach")].

(** The pair (term, document) is indexed with count [n]: the document is
    in the posting set of the term and the table holds [n] for the pair. *)
Definition indexed (st : State) (t d : string) (n : nat) : Prop :=
  (∃ S, posting st t = Some S ∧ d ∈ S) ∧ frequency st t d = Some n.

(** The two structures agree: a document is in the posting set of a term
    exactly when the table holds a positive count for the pair. *)
Definition consistent (st : State) : Prop :=
  ∀ t d, (∃ S, posting st t = Some S ∧ d ∈ S)
         ↔ (∃ n, frequency st t d = Some n ∧ 0 < n).

(** The state [parse_document] reaches at the end of its loop (line 75),
    before the line it prints. *)
Definition index_text (filename text : string) (st : State) : State :=
  let term_counts := Counter (document_tokens (stopwords (self st)) text) in
  (index_tokens term_counts term_counts.*1 filename st).2.

(** Two states hold the same index: the same set objects, inverted
    index, term-frequency table and stopwords ([documents] and [stdout]
    may differ). *)
Definition same_index (st1 st2 : State) : Prop :=
  heap st1 = heap st2
  ∧ inverted_index (self st1) = inverted_index (self st2)
  ∧ term_frequency (self st1) = term_frequency (self st2)
  ∧ stopwords (self st1) = stopwords (self st2).

(** The entries of a directory listing that [build_index] parses. *)
Definition html_entries (listing : list (string * extracted))
    : list (string * extracted) :=
  filter (λ entry, endswith entry.1 ".html" || endswith entry.1 ".htm") listing.

(** The engine of the end-to-end example, indexed. *)
Definition engine_ex : State := parse_all corpus_ex (init "webpages" ∅).

(** * The rest of the program *)

(** ** [_load_url_mapping] and [__init__] *)

Definition set_document_urls (urls : gmap string string) (st : State) : State :=
  let e := self st in
  mkState (heap st)
    (mkEngine (webpages_dir e) (inverted_index e) (term_frequency e)
       (stopwords e) (documents e) urls)
    (stdout st).

(** [s.startswith(prefix)] *)
Fixpoint startswith (s prefix : string) {struct prefix} : bool :=
  match prefix with
  | EmptyString => true
  | String p prefix' =>
      match s with
      | EmptyString => false
      | String c s' => Ascii.eqb c p && startswith s' prefix'
      end
  end.

(** [s.split(" ", 1)]: [s] alone when it has no space, otherwise what is
    before the first space and what is after it. *)
Fixpoint split_space (s : string) : list string :=
  match s with
  | EmptyString => [EmptyString]
  | String c s' =>
      if Ascii.eqb c " " then [EmptyString; s']
      else match split_space s' with
           | [] => [String c EmptyString]
           | part :: parts => String c part :: parts
           end
  end.

(** The body of the loop of lines 39-45. *)
Definition load_url_line (line : string) : M unit :=
  let line := strip line in
  if negb (String.eqb line "") && negb (startswith line "//") then
    match split_space line with
    | [filename; url] =>
        modify (λ st,
          set_document_urls (<[filename := url]> (document_urls (self st))) st)
    | _ => mret tt
    end
  else mret tt.

Fixpoint load_url_lines (lines : list string) : M unit :=
  match lines with
  | [] => mret tt
  | line :: rest => load_url_line line;; load_url_lines rest
  end.

(** What opening and reading [webpages/input.txt] yields: the file is
    missing, or some lines are read and then, possibly, an exception other
    than [FileNotFoundError] is raised (at [open] with no line read, or
    while reading on). *)
Inductive url_file :=
  | Missing
  | Opened (lines : list string) (failure : option string).

Definition _load_url_mapping (file : url_file) : M unit :=
  match file with
  | Missing => print "URL mapping file not found. URLs will not be displayed."
  | Opened lines failure =>
      load_url_lines lines;;
      match failure with
      | None =>
          e ← get_self;
          print ("Loaded " +:+ pretty (size (document_urls e)) +:+ " URL mappings")
      | Some e => print ("Error loading URL mapping: " +:+ e)
      end
  end.

(** [__init__] (lines 19-25), with the side file read by
    [_load_url_mapping]. *)
Definition __init__ (dir : string) (file : url_file) : State :=
  (_load_url_mapping file
     (mkState ∅ (mkEngine dir ∅ ∅ _load_stopwords [] ∅) [])).2.

(** ** [display_results] *)

Definition newline : string := String "010" EmptyString.

(** [s * n] *)
Fixpoint repeat_string (s : string) (n : nat) : string :=
  match n with
  | O => EmptyString
  | S n' => s +:+ repeat_string s n'
  end.

Definition msg_no_results : string := "No results to display.".
Definition url_not_available : string := "URL not available".

(** The loop of lines 143-146; [i] is the number [enumerate] gives the
    first of the remaining results. *)
Fixpoint display_rows (i : nat) (results : list (string * nat)) : M unit :=
  match results with
  | [] => mret tt
  | (doc, score) :: rest =>
      e ← get_self;
      let url := default url_not_available (document_urls e !! doc) in
      print (pretty i +:+ ". " +:+ doc +:+ " (Relevance score: "
             +:+ pretty score +:+ ")");;
      print ("   URL: " +:+ url);;
      display_rows (S i) rest
  end.

Definition display_results (results : list (string * nat)) : M unit :=
  match results with
  | [] => print msg_no_results
  | _ =>
      print (newline +:+ "Found " +:+ pretty (List.length results)
             +:+ " matching documents:");;
      print (repeat_string "-" 50);;
      display_rows 1 results;;
      print (repeat_string "-" 50)
  end.

(** ** [run_interactive] *)

(** How a run ends: normally, or with the exception [input] raises at the
    end of the input, or with the one [open] raises on the output file. *)
Inductive outcome :=
  | Finished
  | EOFError
  | OSError.

Definition prompt : string := newline +:+ "Enter search query: ".
Definition msg_goodbye : string := "Exiting search engine. Goodbye!".

Definition msg_banner : string := newline +:+ "🔍 Mini Search Engine".

(** The loop of lines 156-163 over the lines typed by the user.
    [input(prompt)] writes the prompt to the standard output (an entry of
    [stdout], with no newline after it) and reads a line; the loop returns
    how it ended and the lines it did not read.  Every call of [search]
    iterates a set object of its own, in an order of its own:
    [set_iters k] is the order of the call number [k] of the run. *)
Fixpoint interactive_loop (set_iters : nat → gset string → list string)
    (k : nat) (inputs : list string) : M (outcome * list string) :=
  match inputs with
  | [] => print prompt;; mret (EOFError, [])
  | query :: rest =>
      print prompt;;
      if String.eqb (lower query) "exit" then
        print msg_goodbye;; mret (Finished, rest)
      else
        results ← search (set_iters k) query;
        display_results results;;
        interactive_loop set_iters (S k) rest
  end.

Definition run_interactive (set_iters : nat → gset string → list string)
    (listing : list (string * extracted)) (inputs : list string)
    : M (outcome * list string) :=
  build_index listing;;
  print msg_banner;;
  print "Type 'exit' to quit";;
  interactive_loop set_iters 0 inputs.

(** ** [main] *)

Definition test_queries : list string :=
  [""; "the and is"; "nonexistentterm"; "threats"; "cloud security";
   "cyber attack"; "malware crypto"].

(** The loop of lines 190-194; [set_iters k] is the order in which the
    call number [k] of [search] iterates its set. *)
Fixpoint test_loop (set_iters : nat → gset string → list string)
    (k : nat) (queries : list string) : M unit :=
  match queries with
  | [] => mret tt
  | query :: rest =>
      print ("Query: '" +:+ query +:+ "'");;
      results ← search (set_iters k) query;
      display_results results;;
      print (newline +:+ repeat_string "=" 60 +:+ newline);;
      test_loop set_iters (S k) rest
  end.

(** What a run of the program leaves: the lines on the console, the
    contents of [output.txt] when it was written, how the run ended and
    the input lines it did not read. *)
Record Run := mkRun {
  console : list string;
  output_txt : option (list string);
  ended : outcome;
  unread : list string;
}.

(** [main].  The environment is the command line, the URL side file, the
    listing of [webpages], whether [output.txt] can be opened for writing
    and the lines typed by the user.  While [sys.stdout] is the output
    file, what is printed goes to the file, which starts empty. *)
Definition main (set_iters : nat → gset string → list string)
    (argv : list string) (file : url_file) (listing : list (string * extracted))
    (writable : bool) (inputs : list string) : Run :=
  if bool_decide (1 < List.length argv) && bool_decide (argv !! 1 = Some "--test")
  then
    let engine := __init__ "webpages" file in
    let st := (build_index listing engine).2 in
    if writable then
      let original_stdout := stdout st in
      let st1 := (test_loop set_iters 0 test_queries
                    (mkState (heap st) (self st) [])).2 in
      mkRun (original_stdout ++ ["Test output saved to output.txt"])
            (Some (stdout st1)) Finished inputs
    else mkRun (stdout st) None OSError inputs
  else
    let engine := __init__ "webpages" file in
    let '((how, rest), st) := run_interactive set_iters listing inputs engine in
    mkRun (stdout st) None how rest.

(** ** Views used in the further properties *)

(** The documents of a sequence of [parse_document] calls whose token
    stream has the term [t], in the order of the calls. *)
Definition containing (sw : gset string) (t : string)
    (calls : list (string * extracted)) : list string :=
  flat_map (λ call,
    match call.2 with
    | Text text => if decide (t ∈ document_tokens sw text) then [call.1] else []
    | Raised _ => []
    end) calls.

(** The files [build_index] records in [documents]: the HTML entries of
    the listing whose extraction succeeds. *)
Definition indexed_names (listing : list (string * extracted)) : list string :=
  flat_map (λ entry,
    match entry.2 with
    | Text _ =>
        if endswith entry.1 ".html" || endswith entry.1 ".htm" then [entry.1]
        else []
    | Raised _ => []
    end) listing.

(** The first term of a list that has no posting set. *)
Fixpoint first_absent (P : string → option (gset string))
    (terms : list string) : option string :=
  match terms with
  | [] => None
  | t :: rest =>
      match P t with
      | None => Some t
      | Some _ => first_absent P rest
      end
  end.

(** What a query asks for, as a function of the stopwords [sw], the
    posting sets [P] and the counts [F]: the ranked pairs and the line to
    print, if any.  The candidates are the documents in the posting set of
    every term; a candidate scores the sum of its counts over the term
    list. *)
Definition search_spec (set_iter : gset string → list string)
    (sw : gset string) (P : string → option (gset string))
    (F : string → string → nat) (q : string)
    : list (string * nat) * list string :=
  if all_chars is_space q then ([], [msg_empty_query])
  else
    match query_terms sw q with
    | [] => ([], [msg_all_stopwords])
    | t :: rest =>
        match first_absent P (t :: rest) with
        | Some u => ([], [msg_term_not_found u])
        | None =>
            let D := foldl (λ acc u, acc ∩ default ∅ (P u)) (default ∅ (P t)) rest in
            if decide (D = ∅) then ([], [msg_no_match])
            else
              (sort_desc ((λ d, (d, sum_list ((λ u, F u d) <$> t :: rest)))
                            <$> set_iter D),
               [])
        end
    end.

(** The lines [display_results] prints for the results, numbered from
    [i], with the URL mapping [urls]. *)
Fixpoint result_rows (urls : gmap string string) (i : nat)
    (results : list (string * nat)) : list string :=
  match results with
  | [] => []
  | (doc, score) :: rest =>
      (pretty i +:+ ". " +:+ doc +:+ " (Relevance score: " +:+ pretty score +:+ ")")
      :: ("   URL: " +:+ default url_not_available (urls !! doc))
      :: result_rows urls (S i) rest
  end.

(** All the lines [display_results] prints. *)
Definition display_lines (urls : gmap string string)
    (results : list (string * nat)) : list string :=
  match results with
  | [] => [msg_no_results]
  | _ =>
      [newline +:+ "Found " +:+ pretty (List.length results)
       +:+ " matching documents:"; repeat_string "-" 50]
      ++ result_rows urls 1 results ++ [repeat_string "-" 50]
  end.

(** The lines a query adds to the output in a session or in the test
    transcript: the line of [search], if any, then the lines of
    [display_results], for the index of the state [st]. *)
Definition answer_lines (set_iter : gset string → list string) (st : State)
    (q : string) : list string :=
  let a := search_spec set_iter (stopwords (self st)) (posting st) (tf_count st) q in
  a.2 ++ display_lines (document_urls (self st)) a.1.

(** A listing and a URL file for the examples. *)
Definition listing_ex : list (string * extracted) :=
  [("a.html", Text "cloud threats"); ("notes.txt", Text "cloud");
   ("b.htm", Raised "codec")].

(** * Properties *)

Example findall_words_ex :
  findall_words (lower "Cloud-Security: the_best 4u!") =
  ["cloud"; "security"; "the_best"; "4u"].
Proof. reflexivity. Qed.

Example strip_ex : strip "  a b  " = "a b" ∧ strip "   " = "".
Proof. split; reflexivity. Qed.

Example parse_document_ex :
  stdout (parse_document "docA.html" (Text "Cloud security, cloud THREATS")
            (init "webpages" ∅)).2
  = ["Indexed document: docA.html with 3 unique terms"].
Proof. vm_compute. reflexivity. Qed.

Example search_ex1 :
  (search elements "cloud security" engine_ex).1
  ≡ₚ [("docA.html", 2); ("docC.html", 2)].
Proof. vm_compute. apply perm_swap. Qed.

Example search_ex2 :
  let r := search elements "malware crypto" engine_ex in
  r.1 = [] ∧ last (stdout r.2) = Some "Term 'crypto' not found in any document.".
Proof. vm_compute. done. Qed.

(** ** Text *)

Lemma space_not_word c : is_space c = true → is_word (lower_char c) = false.
Proof.
  destruct c as [[] [] [] [] [] [] [] []]; vm_compute; congruence.
Qed.

Lemma lower_char_idemp c : lower_char (lower_char c) = lower_char c.
Proof. destruct c as [[] [] [] [] [] [] [] []]; vm_compute; reflexivity. Qed.

Lemma lstrip_blank s : all_chars is_space s = true → lstrip s = "".
Proof.
  induction s as [|c s IH]; simpl; [done|].
  destruct (is_space c); simpl; [done | discriminate].
Qed.

Lemma rstrip_nonspace c s : is_space c = false → rstrip (String c s) ≠ "".
Proof. intros Hc. simpl. destruct (rstrip s); rewrite ?Hc; discriminate. Qed.

Lemma lstrip_not_blank s :
  all_chars is_space s = false →
  ∃ c s', lstrip s = String c s' ∧ is_space c = false.
Proof.
  induction s as [|c s IH]; simpl; [discriminate|].
  destruct (is_space c) eqn:Hc; simpl; [done | eauto].
Qed.

(** [not query.strip()] holds exactly for the queries made of whitespace. *)
Lemma strip_empty_iff s : strip s = "" ↔ all_chars is_space s = true.
Proof.
  unfold strip. split.
  - intros Hs. destruct (all_chars is_space s) eqn:Hb; [done|].
    destruct (lstrip_not_blank s Hb) as (c & s' & Hl & Hc).
    rewrite Hl in Hs. by apply rstrip_nonspace in Hs.
  - intros Hb. by rewrite lstrip_blank.
Qed.

Lemma scan_no_word s :
  all_chars (λ c, negb (is_word c)) s = true → scan "" s = [].
Proof.
  induction s as [|c s IH]; simpl; [done|].
  destruct (is_word c); simpl; [discriminate | done].
Qed.

Lemma lower_blank s :
  all_chars is_space s = true →
  all_chars (λ c, negb (is_word c)) (lower s) = true.
Proof.
  induction s as [|c s IH]; simpl; [done|].
  intros [Hc Hs]%andb_true_iff. rewrite (space_not_word c Hc). simpl. auto.
Qed.

(** A blank text has no tokens. *)
Lemma blank_no_words s :
  all_chars is_space s = true → findall_words (lower s) = [].
Proof. intros Hs. apply scan_no_word, lower_blank, Hs. Qed.

Lemma app_cons c (s r : string) : String c s +:+ r = String c (s +:+ r).
Proof. reflexivity. Qed.

Lemma app_empty_r (s : string) : s +:+ "" = s.
Proof. induction s as [|c s IH]; [done|]. by rewrite app_cons, IH. Qed.

Lemma app_snoc (s : string) c r : (s +:+ String c "") +:+ r = s +:+ String c r.
Proof. induction s as [|c' s IH]; [done|]. by rewrite !app_cons, IH. Qed.

Lemma all_chars_snoc p s c :
  all_chars p (s +:+ String c "") = all_chars p s && p c.
Proof.
  induction s as [|c' s IH].
  - simpl. by rewrite andb_true_r.
  - rewrite app_cons. simpl. by rewrite IH, andb_assoc.
Qed.

Lemma elem_of_flush t cur : t ∈ flush cur → t = cur ∧ cur ≠ "".
Proof.
  destruct cur; simpl.
  - intros H. by apply elem_of_nil in H.
  - intros ->%list_elem_of_singleton. done.
Qed.

(** Every match in a lowered text is a non-empty run of lowercase word
    characters. *)
Lemma scan_lower_tokens s cur t :
  all_chars lower_word cur = true →
  t ∈ scan cur (lower s) →
  t ≠ "" ∧ all_chars lower_word t = true.
Proof.
  revert cur. induction s as [|c s IH]; intros cur Hcur; simpl.
  - intros [-> ?]%elem_of_flush. done.
  - destruct (is_word (lower_char c)) eqn:Hw.
    + apply IH. rewrite all_chars_snoc, Hcur. unfold lower_word.
      rewrite Hw, lower_char_idemp. by rewrite bool_decide_eq_true_2.
    + intros [[-> ?]%elem_of_flush | Ht]%elem_of_app; [done|].
      by apply (IH "").
Qed.

Lemma scan_word_run t cur :
  all_chars is_word t = true → scan cur t = flush (cur +:+ t).
Proof.
  revert cur. induction t as [|c t IH]; intros cur; simpl.
  - by rewrite app_empty_r.
  - intros [Hc Ht]%andb_true_iff. rewrite Hc, IH by done. by rewrite app_snoc.
Qed.

Lemma lower_word_fixed t :
  all_chars lower_word t = true → lower t = t ∧ all_chars is_word t = true.
Proof.
  induction t as [|c t IH]; simpl; [done|].
  unfold lower_word at 1.
  intros [[Hw Hl%bool_decide_eq_true]%andb_true_iff Ht]%andb_true_iff.
  destruct (IH Ht) as [-> ->]. by rewrite Hl, Hw.
Qed.

(** A token of a text, given back as a text, is its own only token. *)
Lemma findall_words_token s t :
  t ∈ findall_words (lower s) → findall_words (lower t) = [t].
Proof.
  intros Ht. apply (scan_lower_tokens s "") in Ht as [Hne Hlw]; [|done].
  destruct (lower_word_fixed t Hlw) as [-> Hw].
  unfold findall_words. rewrite scan_word_run by done. simpl.
  by destruct t.
Qed.

(** A term that [parse_document] keeps is, as a query, normalised to
    itself. *)
Lemma query_terms_token sw text t :
  t ∈ document_tokens sw text → query_terms sw t = [t].
Proof.
  unfold document_tokens, query_terms.
  intros [Hkeep Ht]%list_elem_of_filter.
  rewrite (findall_words_token _ _ Ht).
  rewrite filter_cons_True by done. done.
Qed.

(** ** The monad and the primitives *)

Ltac munfold :=
  unfold mbind, M_bind, mret, M_ret, get_self, modify, print, set_read,
    index_contains, tf_contains in *.

Lemma index_getitem_present term l st :
  inverted_index (self st) !! term = Some l → index_getitem term st = (l, st).
Proof. intros H. unfold index_getitem. by rewrite H. Qed.

Lemma tf_getitem_present term c st :
  term_frequency (self st) !! term = Some c → tf_getitem term st = (c, st).
Proof. intros H. unfold tf_getitem. by rewrite H. Qed.

Lemma posting_deref st t l :
  inverted_index (self st) !! t = Some l → default ∅ (posting st t) = deref st l.
Proof. intros H. unfold posting, deref. by rewrite H. Qed.

(** ** Scoring and ranking read the table and leave the state alone *)

Lemma score_cons st t terms doc :
  score st (t :: terms) doc = tf_count st t doc + score st terms doc.
Proof. reflexivity. Qed.

Lemma score_terms_spec terms doc acc st :
  score_terms terms doc acc st = (acc + score st terms doc, st).
Proof.
  revert acc. induction terms as [|t terms IH]; intros acc.
  - simpl. munfold. unfold score. simpl. f_equal. lia.
  - rewrite score_cons. unfold tf_count, frequency. simpl. munfold.
    destruct (term_frequency (self st) !! t) as [c|] eqn:Ht; simpl.
    + rewrite (tf_getitem_present _ _ _ Ht), IH.
      unfold counter_getitem. f_equal. lia.
    + rewrite IH. done.
Qed.

Lemma rank_docs_spec terms docs ranked st :
  rank_docs terms docs ranked st
  = ((ranked ++ ((λ d, (d, score st terms d)) <$> docs))%list, st).
Proof.
  revert ranked. induction docs as [|d docs IH]; intros ranked; simpl.
  - munfold. by rewrite app_nil_r.
  - munfold. rewrite score_terms_spec, IH. by rewrite <- app_assoc.
Qed.

(** ** The sort *)

Lemma insert_desc_perm x l : insert_desc x l ≡ₚ x :: l.
Proof.
  induction l as [|y l IH]; simpl; [done|].
  destruct (x.2 <? y.2)%nat; [|done].
  rewrite IH. apply perm_swap.
Qed.

Lemma sort_desc_perm l : sort_desc l ≡ₚ l.
Proof.
  induction l as [|x l IH]; simpl; [done|].
  by rewrite insert_desc_perm, IH.
Qed.

Lemma insert_desc_sorted x l :
  StronglySorted by_score_desc l → StronglySorted by_score_desc (insert_desc x l).
Proof.
  induction 1 as [|y l Hl IH Hy]; simpl.
  - repeat constructor.
  - destruct (x.2 <? y.2)%nat eqn:Hxy.
    + apply Nat.ltb_lt in Hxy. constructor; [done|].
      rewrite insert_desc_perm. constructor; [unfold by_score_desc; lia | done].
    + apply Nat.ltb_ge in Hxy. constructor; [by constructor|].
      constructor; [done|].
      eapply Forall_impl; [exact Hy|]. unfold by_score_desc. intros; simpl in *; lia.
Qed.

Lemma sort_desc_sorted l : StronglySorted by_score_desc (sort_desc l).
Proof.
  induction l as [|x l IH]; simpl; [constructor | by apply insert_desc_sorted].
Qed.

(** ** The term loop *)

Lemma fresh_heap st : heap st !! fresh (dom (heap st)) = None.
Proof. apply not_elem_of_dom, is_fresh. Qed.

(** The loop works on a set object of its own: the objects of the state
    [st0] it started from are left as they were, and so is the engine. *)
Lemma match_terms_frame st0 terms md st r st' :
  match_terms terms md st = (r, st') →
  self st = self st0 → heap st0 ⊆ heap st →
  (∀ m, md = Some m → heap st0 !! m = None) →
  self st' = self st0 ∧ heap st0 ⊆ heap st'
  ∧ (∀ m, r = Next (Some m) → heap st0 !! m = None)
  ∧ (∀ res, r = Return res → res = []).
Proof.
  revert md st. induction terms as [|t terms IH]; intros md st Hrun Hself Hheap Hmd.
  - simpl in Hrun. munfold. injection Hrun as <- <-.
    split_and!; [done | done | | done]. intros m [= ->]. by apply Hmd.
  - simpl in Hrun. munfold.
    destruct (inverted_index (self st) !! t) as [l|] eqn:Ht; simpl in Hrun.
    + destruct md as [m|]; rewrite (index_getitem_present _ _ _ Ht) in Hrun.
      * eapply IH in Hrun; [done | done | | done]. simpl.
        apply insert_subseteq_r; [by apply Hmd | done].
      * assert (heap st0 !! fresh (dom (heap st)) = None) as Hfr.
        { eapply lookup_weaken_None; [apply fresh_heap | done]. }
        eapply IH in Hrun; [done | done | | ]; simpl.
        -- by apply insert_subseteq_r.
        -- by intros m [= <-].
    + injection Hrun as <- <-. split_and!; [done | done | done |].
      by intros res [= <-].
Qed.

Lemma inter_postings_ext st1 st2 terms acc :
  (∀ t, t ∈ terms → posting st1 t = posting st2 t) →
  inter_postings st1 terms acc = inter_postings st2 terms acc.
Proof.
  revert acc. induction terms as [|t terms IH]; intros acc Hp; [done|].
  unfold inter_postings in *. simpl. rewrite (Hp t) by left.
  apply IH. intros u Hu. apply Hp. by right.
Qed.

Lemma elem_of_inter_postings st terms acc d :
  d ∈ inter_postings st terms acc
  ↔ d ∈ acc ∧ ∀ t, t ∈ terms → d ∈ default ∅ (posting st t).
Proof.
  revert acc. induction terms as [|t terms IH]; intros acc.
  - unfold inter_postings. simpl. split; [|tauto].
    intros Hd. split; [done|]. intros t Ht. by apply elem_of_nil in Ht.
  - change (inter_postings st (t :: terms) acc)
      with (inter_postings st terms (acc ∩ default ∅ (posting st t))).
    rewrite IH, elem_of_intersection. split.
    + intros [[Ha Ht] Hall]. split; [done|].
      intros u [->|Hu]%elem_of_cons; auto.
    + intros [Ha Hall]. split; [split; [done|]|].
      * apply Hall. by left.
      * intros u Hu. apply Hall. by right.
Qed.

Lemma posting_set_heap_ne st m X t l :
  inverted_index (self st) !! t = Some l → l ≠ m →
  posting (set_heap (<[m := X]> (heap st)) st) t = posting st t.
Proof.
  intros Hl Hne. unfold posting. simpl. rewrite Hl. simpl.
  by rewrite lookup_insert_ne.
Qed.

(** Once [matching_docs] is a set object of its own, every present term
    intersects it in place. *)
Lemma match_terms_Some terms m st X :
  heap st !! m = Some X →
  (∀ t, t ∈ terms → ∃ l, inverted_index (self st) !! t = Some l ∧ l ≠ m) →
  match_terms terms (Some m) st
  = (Next (Some m), set_heap (<[m := inter_postings st terms X]> (heap st)) st).
Proof.
  revert st X. induction terms as [|t terms IH]; intros st X Hm Hall.
  - simpl. munfold. f_equal. destruct st as [h e out]. unfold set_heap. simpl in *.
    f_equal. symmetry. by apply insert_id.
  - destruct (Hall t) as (l & Hl & Hne); [by left|].
    simpl. munfold. rewrite Hl. simpl.
    rewrite (index_getitem_present _ _ _ Hl).
    assert (deref st m = X) as -> by (unfold deref; by rewrite Hm).
    rewrite (IH _ (X ∩ deref st l)).
    + f_equal. unfold set_heap. simpl. f_equal.
      rewrite insert_insert_eq. f_equal.
      change (inter_postings st (t :: terms) X)
        with (inter_postings st terms (X ∩ default ∅ (posting st t))).
      rewrite (posting_deref _ _ _ Hl).
      apply inter_postings_ext. intros u Hu.
      destruct (Hall u) as (l' & Hl' & Hne'); [by right|].
      by apply (posting_set_heap_ne st m _ u l').
    + simpl. by rewrite lookup_insert_eq.
    + intros u Hu. simpl. apply Hall. by right.
Qed.

(** The first term: [matching_docs] becomes a copy of its posting set. *)
Lemma match_terms_None t terms st :
  (∀ u, u ∈ t :: terms → is_Some (posting st u)) →
  match_terms (t :: terms) None st
  = (Next (Some (fresh (dom (heap st)))),
     set_heap (<[fresh (dom (heap st)) :=
                  inter_postings st terms (default ∅ (posting st t))]> (heap st)) st).
Proof.
  intros Hall.
  assert (∀ u, u ∈ t :: terms →
    ∃ l, inverted_index (self st) !! u = Some l ∧ l ≠ fresh (dom (heap st)))
    as Hlocs.
  { intros u Hu. destruct (Hall u Hu) as [S HS]. unfold posting in HS.
    destruct (inverted_index (self st) !! u) as [l|]; [|done].
    exists l. split; [done|]. intros ->. simpl in HS.
    by rewrite fresh_heap in HS. }
  destruct (Hlocs t) as (l & Hl & Hne); [by left|].
  simpl. munfold. rewrite Hl. simpl.
  rewrite (index_getitem_present _ _ _ Hl).
  rewrite (match_terms_Some _ _ _ (deref st l)).
  - f_equal. unfold set_heap. simpl. f_equal.
    rewrite insert_insert_eq. f_equal.
    rewrite (posting_deref _ _ _ Hl).
    apply inter_postings_ext. intros u Hu.
    destruct (Hlocs u) as (l' & Hl' & Hne'); [by right|].
    by apply (posting_set_heap_ne st _ _ u l').
  - simpl. by rewrite lookup_insert_eq.
  - intros u Hu. simpl. apply Hlocs. by right.
Qed.

(** The loop stops at the first term that is not a key of the index: the
    terms after it play no part in the run. *)
Lemma match_terms_absent pre t md st :
  (∀ u, u ∈ pre → is_Some (inverted_index (self st) !! u)) →
  inverted_index (self st) !! t = None →
  ∃ st', self st' = self st
    ∧ stdout st' = (stdout st ++ [msg_term_not_found t])%list
    ∧ ∀ rest, match_terms (pre ++ t :: rest) md st = (Return [], st').
Proof.
  revert md st. induction pre as [|u pre IH]; intros md st Hpre Ht.
  - eexists. split_and!; [| |intros rest; simpl; munfold; rewrite Ht; simpl; reflexivity];
      done.
  - destruct (Hpre u) as [l Hl]; [by left|].
    assert (∀ m : State, self m = self st →
      (∀ v, v ∈ pre → is_Some (inverted_index (self m) !! v))
      ∧ inverted_index (self m) !! t = None) as Hkeep.
    { intros m ->. split; [|done]. intros v Hv. apply Hpre. by right. }
    destruct md as [m|].
    + destruct (Hkeep (set_heap (<[m := deref st m ∩ deref st l]> (heap st)) st))
        as [H1 H2]; [done|].
      destruct (IH (Some m) _ H1 H2) as (st' & Hs & Ho & Hrun).
      exists st'. split_and!; [done | done |].
      intros rest. simpl. munfold. rewrite Hl. simpl.
      rewrite (index_getitem_present _ _ _ Hl). apply Hrun.
    + destruct (Hkeep (set_heap (<[fresh (dom (heap st)) := deref st l]> (heap st)) st))
        as [H1 H2]; [done|].
      destruct (IH (Some (fresh (dom (heap st)))) _ H1 H2) as (st' & Hs & Ho & Hrun).
      exists st'. split_and!; [done | done |].
      intros rest. simpl. munfold. rewrite Hl. simpl.
      rewrite (index_getitem_present _ _ _ Hl). apply Hrun.
Qed.

(** ** [search], branch by branch *)

Lemma query_terms_blank sw q : strip q = "" → query_terms sw q = [].
Proof.
  intros Hq%strip_empty_iff. unfold query_terms.
  by rewrite blank_no_words.
Qed.

(** The term list is empty exactly when every token is a stopword or has
    at most one character. *)
Lemma query_terms_nil_iff sw q :
  query_terms sw q = []
  ↔ Forall (λ t, t ∈ sw ∨ (String.length t ≤ 1)%nat) (findall_words (lower q)).
Proof.
  unfold query_terms. induction (findall_words (lower q)) as [|t l IH].
  - split; [constructor | done].
  - rewrite filter_cons, Forall_cons. case_decide as Hk.
    + split; [done|]. intros [[?|?] _]; [tauto | lia].
    + rewrite IH. split; [|tauto]. intros Hl. split; [|done].
      destruct (decide (t ∈ sw)); [by left | right].
      destruct (decide (1 < String.length t)); [tauto | lia].
Qed.

Lemma search_blank set_iter q st :
  strip q = "" →
  search set_iter q st = ([], (print msg_empty_query st).2).
Proof. intros Hq. unfold search. by rewrite decide_True. Qed.

Lemma search_all_stopwords set_iter q st :
  strip q ≠ "" → query_terms (stopwords (self st)) q = [] →
  search set_iter q st = ([], (print msg_all_stopwords st).2).
Proof.
  intros Hq Ht. unfold search. rewrite decide_False by done.
  munfold. simpl. by rewrite Ht.
Qed.

Lemma search_with_terms set_iter q st :
  query_terms (stopwords (self st)) q ≠ [] →
  search set_iter q st
  = search_terms set_iter (query_terms (stopwords (self st)) q) st.
Proof.
  intros Ht. unfold search, search_terms.
  rewrite decide_False by (intros Hq; by apply Ht, query_terms_blank).
  munfold. simpl.
  destruct (query_terms (stopwords (self st)) q) as [|t terms] eqn:Hterms; [done|].
  destruct (match_terms (t :: terms) None st) as [[[m|]|res] st1]; [|done|done].
  destruct (decide (deref st1 m = ∅)); [done|].
  by rewrite rank_docs_spec.
Qed.

Lemma search_terms_present set_iter t rest st :
  (∀ u, u ∈ t :: rest → is_Some (posting st u)) →
  search_terms set_iter (t :: rest) st
  = let D := inter_postings st rest (default ∅ (posting st t)) in
    let st1 := set_heap (<[fresh (dom (heap st)) := D]> (heap st)) st in
    if decide (D = ∅) then ([], (print msg_no_match st1).2)
    else (sort_desc ((λ d, (d, score st (t :: rest) d)) <$> set_iter D), st1).
Proof.
  intros Hall. unfold search_terms. rewrite match_terms_None by done.
  unfold deref. simpl. rewrite lookup_insert_eq. simpl. done.
Qed.

Section search.
Variable set_iter : gset string → list string.
Hypothesis set_iter_perm : ∀ X, set_iter X ≡ₚ elements X.

(** A document that is in the posting set of every query term is
    returned, with the sum of its counts over the term list. *)
Lemma search_hit q st doc :
  query_terms (stopwords (self st)) q ≠ [] →
  (∀ u, u ∈ query_terms (stopwords (self st)) q →
        ∃ S, posting st u = Some S ∧ doc ∈ S) →
  (doc, score st (query_terms (stopwords (self st)) q) doc)
    ∈ (search set_iter q st).1.
Proof using set_iter_perm.
  intros Hne Hall. rewrite search_with_terms by done.
  destruct (query_terms (stopwords (self st)) q) as [|t rest]; [done|].
  rewrite search_terms_present.
  2:{ intros u Hu. destruct (Hall u Hu) as (S & -> & _). eauto. }
  simpl.
  assert (doc ∈ inter_postings st rest (default ∅ (posting st t))) as Hdoc.
  { apply elem_of_inter_postings. split.
    - destruct (Hall t) as (S & -> & ?); [by left | done].
    - intros u Hu. destruct (Hall u) as (S & -> & ?); [by right | done]. }
  rewrite decide_False by set_solver. simpl.
  rewrite sort_desc_perm. apply list_elem_of_fmap.
  exists doc. split; [done|]. rewrite set_iter_perm. by apply elem_of_elements.
Qed.

(** Every returned pair carries the sum of the document's counts over
    the term list. *)
Lemma search_result_score q st doc s :
  (doc, s) ∈ (search set_iter q st).1 →
  s = score st (query_terms (stopwords (self st)) q) doc.
Proof.
  intros Hin.
  destruct (decide (strip q = "")) as [Hq|Hq].
  { rewrite search_blank in Hin by done. by apply elem_of_nil in Hin. }
  destruct (decide (query_terms (stopwords (self st)) q = [])) as [Ht|Ht].
  { rewrite search_all_stopwords in Hin by done. by apply elem_of_nil in Hin. }
  rewrite search_with_terms in Hin by done. unfold search_terms in Hin.
  destruct (match_terms _ None st) as [r st1] eqn:Hrun.
  destruct (match_terms_frame st _ _ _ _ _ Hrun) as (Hself & _ & _ & Hret);
    [done | done | done |].
  destruct r as [[m|]|res].
  - destruct (decide (deref st1 m = ∅)); simpl in Hin.
    { by apply elem_of_nil in Hin. }
    rewrite sort_desc_perm in Hin.
    apply list_elem_of_fmap in Hin as (d & [= -> ->] & _).
    unfold score, tf_count, frequency. by rewrite Hself.
  - by apply elem_of_nil in Hin.
  - rewrite (Hret res) in Hin by done. by apply elem_of_nil in Hin.
Qed.
End search.

(** ** The local tally *)

Lemma counts_getitem_incr k c k' :
  counts_getitem (counter_incr k c) k'
  = counts_getitem c k' + (if decide (k = k') then 1 else 0).
Proof.
  induction c as [|[k0 n] c IH]; simpl.
  - repeat case_decide; done.
  - repeat case_decide; simplify_eq; simpl; repeat case_decide;
      simplify_eq; try lia; try done.
    all: rewrite IH; by rewrite ?decide_True, ?decide_False by done.
Qed.

Lemma keys_incr k c k' :
  k' ∈ (counter_incr k c).*1 ↔ k' = k ∨ k' ∈ c.*1.
Proof.
  induction c as [|[k0 n] c IH]; simpl.
  - rewrite list_elem_of_singleton. split; [auto|].
    intros [?|H]; [done | by apply elem_of_nil in H].
  - case_decide; simplify_eq; simpl; rewrite !elem_of_cons; [|rewrite IH]; tauto.
Qed.

Lemma occurrences_cons t x l :
  occurrences t (x :: l) = (if decide (x = t) then 1 else 0) + occurrences t l.
Proof. unfold occurrences. rewrite filter_cons. by case_decide. Qed.

Lemma counts_getitem_foldl l c k :
  counts_getitem (foldl (λ c k, counter_incr k c) c l) k
  = counts_getitem c k + occurrences k l.
Proof.
  revert c. induction l as [|x l IH]; intros c; simpl.
  - unfold occurrences. simpl. lia.
  - rewrite IH, counts_getitem_incr, occurrences_cons. lia.
Qed.

Lemma keys_foldl l c k :
  k ∈ (foldl (λ c k, counter_incr k c) c l).*1 ↔ k ∈ l ∨ k ∈ c.*1.
Proof.
  revert c. induction l as [|x l IH]; intros c; simpl.
  - split; [auto|]. intros [H|?]; [by apply elem_of_nil in H | done].
  - rewrite IH, keys_incr, elem_of_cons. tauto.
Qed.

(** The tally of a token is the number of its occurrences. *)
Lemma Counter_count l k : counts_getitem (Counter l) k = occurrences k l.
Proof. unfold Counter. by rewrite counts_getitem_foldl. Qed.

(** The keys of the tally are the tokens. *)
Lemma Counter_keys l k : k ∈ (Counter l).*1 ↔ k ∈ l.
Proof.
  unfold Counter. rewrite keys_foldl. simpl. split; [|auto].
  intros [?|H]; [done | by apply elem_of_nil in H].
Qed.

Lemma occurrences_pos_inv t l : 0 < occurrences t l → t ∈ l.
Proof.
  induction l as [|x l IH]; [unfold occurrences; simpl; lia|].
  rewrite occurrences_cons. case_decide as Hx.
  - intros _. subst x. left.
  - intros H. right. apply IH. lia.
Qed.

Lemma occurrences_pos t l : t ∈ l → 0 < occurrences t l.
Proof.
  induction 1 as [x l|x y l Hin IH]; rewrite occurrences_cons.
  - rewrite decide_True by done. lia.
  - lia.
Qed.

(** ** One iteration of the indexing loop *)

Lemma state_eq st1 st2 :
  heap st1 = heap st2 → self st1 = self st2 → stdout st1 = stdout st2 →
  st1 = st2.
Proof. destruct st1, st2. simpl. by intros -> -> ->. Qed.

Lemma engine_eq e1 e2 :
  webpages_dir e1 = webpages_dir e2 →
  inverted_index e1 = inverted_index e2 →
  term_frequency e1 = term_frequency e2 →
  stopwords e1 = stopwords e2 →
  documents e1 = documents e2 →
  document_urls e1 = document_urls e2 →
  e1 = e2.
Proof. destruct e1, e2. simpl. by intros -> -> -> -> -> ->. Qed.

(** The fields an iteration does not touch. *)
Lemma index_token_frame n token filename st :
  let st' := (index_token n token filename st).2 in
  webpages_dir (self st') = webpages_dir (self st)
  ∧ stopwords (self st') = stopwords (self st)
  ∧ documents (self st') = documents (self st)
  ∧ document_urls (self st') = document_urls (self st)
  ∧ stdout st' = stdout st.
Proof.
  unfold index_token, index_getitem, set_new, set_add, tf_setitem, tf_getitem.
  munfold.
  destruct (inverted_index (self st) !! token);
    simpl; destruct (term_frequency (self st) !! token); simpl; done.
Qed.

(** The table after an iteration. *)
Lemma index_token_tf n token filename st :
  term_frequency (self (index_token n token filename st).2)
  = <[token := <[filename := n]> (default ∅ (term_frequency (self st) !! token))]>
      (term_frequency (self st)).
Proof.
  unfold index_token, index_getitem, set_new, set_add, tf_setitem, tf_getitem.
  munfold.
  destruct (inverted_index (self st) !! token);
    simpl; destruct (term_frequency (self st) !! token); simpl;
    by rewrite ?insert_insert_eq.
Qed.

(** The index and the set objects after an iteration on a known term. *)
Lemma index_token_present n token filename st l :
  inverted_index (self st) !! token = Some l →
  inverted_index (self (index_token n token filename st).2)
    = inverted_index (self st)
  ∧ heap (index_token n token filename st).2
    = <[l := {[filename]} ∪ deref st l]> (heap st).
Proof.
  intros Hl.
  unfold index_token, index_getitem, set_new, set_add, tf_setitem, tf_getitem.
  munfold. rewrite Hl. simpl.
  destruct (term_frequency (self st) !! token); simpl; done.
Qed.

(** The index and the set objects after an iteration on a new term. *)
Lemma index_token_absent n token filename st :
  inverted_index (self st) !! token = None →
  inverted_index (self (index_token n token filename st).2)
    = <[token := fresh (dom (heap st))]> (inverted_index (self st))
  ∧ heap (index_token n token filename st).2
    = <[fresh (dom (heap st)) := {[filename]}]> (heap st).
Proof.
  intros Hl.
  unfold index_token, index_getitem, set_new, set_add, tf_setitem, tf_getitem.
  munfold. rewrite Hl. simpl. unfold deref. simpl.
  rewrite lookup_insert_eq. simpl. rewrite insert_insert_eq.
  rewrite (right_id_L ∅ (∪)).
  destruct (term_frequency (self st) !! token); simpl; done.
Qed.

Lemma index_token_frequency n token filename st t d :
  frequency (index_token n token filename st).2 t d
  = if decide (t = token ∧ d = filename) then Some n else frequency st t d.
Proof.
  unfold frequency. rewrite index_token_tf.
  destruct (decide (t = token)) as [Heq|Ht]; [subst t|].
  - rewrite lookup_insert_eq. simpl.
    destruct (decide (d = filename)) as [Heq|Hd]; [subst d|].
    + rewrite lookup_insert_eq. by rewrite decide_True.
    + rewrite lookup_insert_ne by done. rewrite decide_False by tauto.
      by destruct (term_frequency (self st) !! token).
  - rewrite lookup_insert_ne by done. by rewrite decide_False by tauto.
Qed.

(** The posting set of the term of the iteration gains the document. *)
Lemma index_token_posting n token filename st :
  posting (index_token n token filename st).2 token
  = Some ({[filename]} ∪ default ∅ (posting st token)).
Proof.
  unfold posting.
  destruct (inverted_index (self st) !! token) as [l|] eqn:Hl.
  - destruct (index_token_present n token filename st l Hl) as [-> ->].
    rewrite Hl. simpl. by rewrite lookup_insert_eq.
  - destruct (index_token_absent n token filename st Hl) as [-> ->].
    rewrite lookup_insert_eq. simpl. rewrite lookup_insert_eq.
    by rewrite (right_id_L ∅ (∪)).
Qed.

(** With no set object shared between terms, the other posting sets are
    left as they were, and the index stays well formed. *)
Lemma index_token_posting_ne n token filename st t :
  wf st → t ≠ token →
  posting (index_token n token filename st).2 t = posting st t.
Proof.
  intros [Halloc Hinj] Hne. unfold posting.
  destruct (inverted_index (self st) !! token) as [l|] eqn:Hl.
  - destruct (index_token_present n token filename st l Hl) as [-> ->].
    destruct (inverted_index (self st) !! t) as [l'|] eqn:Hl'; [|done].
    simpl. rewrite lookup_insert_ne; [done|].
    intros ->. apply Hne. by eapply Hinj.
  - destruct (index_token_absent n token filename st Hl) as [-> ->].
    rewrite lookup_insert_ne by done.
    destruct (inverted_index (self st) !! t) as [l'|] eqn:Hl'; [|done].
    simpl. rewrite lookup_insert_ne; [done|].
    intros <-. destruct (Halloc t _ Hl') as [S HS].
    by rewrite fresh_heap in HS.
Qed.

Lemma index_token_wf n token filename st :
  wf st → wf (index_token n token filename st).2.
Proof.
  intros [Halloc Hinj].
  destruct (inverted_index (self st) !! token) as [l|] eqn:Hl.
  - destruct (index_token_present n token filename st l Hl) as [Hix Hh].
    split; rewrite Hix; [|done].
    intros t l' Ht. rewrite Hh. destruct (decide (l = l')) as [->|].
    + rewrite lookup_insert_eq. eauto.
    + rewrite lookup_insert_ne by done. eauto.
  - destruct (index_token_absent n token filename st Hl) as [Hix Hh].
    assert (∀ t l', inverted_index (self st) !! t = Some l' →
                    l' ≠ fresh (dom (heap st))) as Hfr.
    { intros t l' Ht ->. destruct (Halloc _ _ Ht) as [S HS].
      by rewrite fresh_heap in HS. }
    split; rewrite Hix.
    + intros t l' Ht. rewrite Hh.
      destruct (decide (token = t)) as [->|Hne].
      * rewrite lookup_insert_eq in Ht. injection Ht as <-.
        rewrite lookup_insert_eq. eauto.
      * rewrite lookup_insert_ne in Ht by done.
        rewrite lookup_insert_ne by (symmetry; eauto). eauto.
    + intros t1 t2 l' H1 H2.
      destruct (decide (t1 = token)) as [E1|Hne1];
        destruct (decide (t2 = token)) as [E2|Hne2];
        [congruence | subst t1 | subst t2 |].
      * rewrite lookup_insert_eq in H1. rewrite lookup_insert_ne in H2 by done.
        injection H1 as <-. by destruct (Hfr _ _ H2).
      * rewrite lookup_insert_eq in H2. rewrite lookup_insert_ne in H1 by done.
        injection H2 as <-. by destruct (Hfr _ _ H1).
      * rewrite lookup_insert_ne in H1, H2 by done. eauto.
Qed.

Lemma index_token_indexed n token filename st :
  indexed (index_token n token filename st).2 token filename n.
Proof.
  split.
  - rewrite index_token_posting. eexists. split; [done|]. set_solver.
  - rewrite index_token_frequency. by rewrite decide_True.
Qed.

(** An indexed pair stays indexed, with its count, through the iterations
    for other pairs (and through one for the same pair and count). *)
Lemma index_token_keeps n' t' f' st t d n :
  indexed st t d n → (t' = t → f' = d → n' = n) →
  indexed (index_token n' t' f' st).2 t d n.
Proof.
  intros [(S & HS & Hd) Hfreq] Hsame. split.
  - unfold posting in *.
    destruct (inverted_index (self st) !! t) as [l|] eqn:Hl; [|done].
    simpl in HS.
    destruct (inverted_index (self st) !! t') as [l'|] eqn:Hl'.
    + destruct (index_token_present n' t' f' st l' Hl') as [-> ->].
      rewrite Hl. simpl. destruct (decide (l' = l)) as [->|Hne].
      * rewrite lookup_insert_eq. eexists. split; [done|].
        unfold deref. rewrite HS. set_solver.
      * rewrite lookup_insert_ne by done. eauto.
    + destruct (index_token_absent n' t' f' st Hl') as [-> ->].
      rewrite lookup_insert_ne by congruence. rewrite Hl. simpl.
      rewrite lookup_insert_ne; [eauto|].
      intros Heq. rewrite <- Heq, fresh_heap in HS. done.
  - rewrite index_token_frequency. case_decide as Heq; [|done].
    destruct Heq as [-> ->]. f_equal. by apply Hsame.
Qed.

(** On a pair that is already indexed with the same count, an iteration
    changes nothing. *)
Lemma index_token_id n token filename st :
  indexed st token filename n → index_token n token filename st = (tt, st).
Proof.
  intros [(S & HS & Hd) Hfreq].
  assert ((index_token n token filename st).2 = st) as Hst.
  { unfold posting, frequency in *.
    destruct (inverted_index (self st) !! token) as [l|] eqn:Hl; [|done].
    destruct (term_frequency (self st) !! token) as [c|] eqn:Hc; [|done].
    simpl in HS, Hfreq.
    destruct (index_token_present n token filename st l Hl) as [Hix Hh].
    destruct (index_token_frame n token filename st) as (? & ? & ? & ? & ?).
    apply state_eq; [| |done].
    - rewrite Hh. apply insert_id. rewrite HS. f_equal.
      unfold deref. rewrite HS. simpl. symmetry.
      by apply subseteq_union_1_L, singleton_subseteq_l.
    - apply engine_eq; try done.
      rewrite index_token_tf, Hc. simpl.
      apply insert_id. rewrite Hc. f_equal. symmetry. by apply insert_id. }
  destruct (index_token n token filename st) as [[] st']. simpl in Hst. by subst.
Qed.

(** ** The indexing loop *)

Lemma index_tokens_cons tc k keys filename st :
  (index_tokens tc (k :: keys) filename st).2
  = (index_tokens tc keys filename
       (index_token (counts_getitem tc k) k filename st).2).2.
Proof.
  simpl. munfold. by destruct (index_token _ k filename st) as [[] st1].
Qed.

Lemma index_tokens_frame tc keys filename st :
  let st' := (index_tokens tc keys filename st).2 in
  webpages_dir (self st') = webpages_dir (self st)
  ∧ stopwords (self st') = stopwords (self st)
  ∧ documents (self st') = documents (self st)
  ∧ document_urls (self st') = document_urls (self st)
  ∧ stdout st' = stdout st.
Proof.
  revert st. induction keys as [|k keys IH]; intros st; [done|].
  cbv zeta. rewrite index_tokens_cons.
  destruct (IH (index_token (counts_getitem tc k) k filename st).2)
    as (-> & -> & -> & -> & ->).
  apply index_token_frame.
Qed.

Lemma index_token_consistent n token filename st :
  0 < n → wf st → consistent st →
  consistent (index_token n token filename st).2.
Proof.
  intros Hn Hwf Hc t d. rewrite index_token_frequency.
  destruct (decide (t = token)) as [Heq|Hne]; [subst t|].
  - rewrite index_token_posting.
    destruct (decide (d = filename)) as [Heq|Hd]; [subst d|].
    + rewrite decide_True by done. split; [eauto|].
      intros _. eexists. split; [done|]. set_solver.
    + rewrite decide_False by tauto. rewrite <- (Hc token d). split.
      * intros (S & [= <-] & Hin).
        apply elem_of_union in Hin as [Hin%elem_of_singleton|Hin]; [done|].
        destruct (posting st token) as [S|]; [eauto|].
        by apply not_elem_of_empty in Hin.
      * intros (S & HS & Hin). eexists. split; [done|]. rewrite HS. set_solver.
  - rewrite decide_False by tauto.
    rewrite index_token_posting_ne by done. apply Hc.
Qed.

Lemma index_tokens_consistent tc keys filename st :
  (∀ k, k ∈ keys → 0 < counts_getitem tc k) →
  wf st → consistent st →
  wf (index_tokens tc keys filename st).2
  ∧ consistent (index_tokens tc keys filename st).2.
Proof.
  revert st. induction keys as [|k keys IH]; intros st Hpos Hwf Hc; [done|].
  rewrite index_tokens_cons. apply IH.
  - intros k' Hk'. apply Hpos. by right.
  - by apply index_token_wf.
  - apply index_token_consistent; [|done|done]. apply Hpos. by left.
Qed.

Lemma index_tokens_keeps tc keys filename st t d n :
  indexed st t d n →
  (filename = d → counts_getitem tc t = n) →
  indexed (index_tokens tc keys filename st).2 t d n.
Proof.
  revert st. induction keys as [|k keys IH]; intros st Hi Hsame; [done|].
  rewrite index_tokens_cons. apply IH; [|done].
  apply index_token_keeps; [done|]. intros -> ?. by apply Hsame.
Qed.

Lemma index_tokens_indexed tc keys filename st t :
  t ∈ keys →
  indexed (index_tokens tc keys filename st).2 t filename (counts_getitem tc t).
Proof.
  revert st. induction keys as [|k keys IH]; intros st Ht.
  { by apply elem_of_nil in Ht. }
  rewrite index_tokens_cons.
  destruct (decide (t = k)) as [->|Hne].
  - apply index_tokens_keeps; [apply index_token_indexed | done].
  - apply IH. by apply elem_of_cons in Ht as [?|?].
Qed.

Lemma index_tokens_id tc keys filename st :
  (∀ k, k ∈ keys → indexed st k filename (counts_getitem tc k)) →
  index_tokens tc keys filename st = (tt, st).
Proof.
  induction keys as [|k keys IH]; intros Hall; [done|].
  simpl. munfold. rewrite index_token_id by (apply Hall; by left).
  apply IH. intros k' Hk'. apply Hall. by right.
Qed.

(** ** [parse_document] *)

Lemma parse_document_text filename text st :
  ∃ line, parse_document filename (Text text) st
          = (true, (print line (index_text filename text st)).2).
Proof.
  eexists. unfold parse_document, index_text. munfold. simpl.
  destruct (index_tokens _ _ filename st) as [[] st1]. reflexivity.
Qed.

Lemma parse_document_raised filename e st :
  ∃ line, parse_document filename (Raised e) st = (false, (print line st).2).
Proof. eexists. unfold parse_document. munfold. reflexivity. Qed.

Lemma parse_document_stopwords filename content st :
  stopwords (self (parse_document filename content st).2) = stopwords (self st).
Proof.
  destruct content as [text|e].
  - destruct (parse_document_text filename text st) as [line ->]. simpl.
    apply index_tokens_frame.
  - by destruct (parse_document_raised filename e st) as [line ->].
Qed.

Lemma parse_document_consistent filename content st :
  wf st → consistent st →
  wf (parse_document filename content st).2
  ∧ consistent (parse_document filename content st).2.
Proof.
  intros Hwf Hc. destruct content as [text|e].
  - destruct (parse_document_text filename text st) as [line ->].
    unfold index_text.
    apply (index_tokens_consistent _ _ filename st); [|done|done].
    intros k Hk. apply (proj1 (Counter_keys _ _)) in Hk.
    rewrite Counter_count. by apply occurrences_pos.
  - by destruct (parse_document_raised filename e st) as [line ->].
Qed.

(** Indexing another document leaves an indexed pair as it is. *)
Lemma parse_document_keeps filename content st t d n :
  indexed st t d n → filename ≠ d →
  indexed (parse_document filename content st).2 t d n.
Proof.
  intros Hi Hne. destruct content as [text|e].
  - destruct (parse_document_text filename text st) as [line ->].
    by apply (index_tokens_keeps _ _ filename st).
  - by destruct (parse_document_raised filename e st) as [line ->].
Qed.

(** Indexing a document indexes each of its terms with the number of its
    occurrences. *)
Lemma parse_document_indexed d text st t :
  t ∈ document_tokens (stopwords (self st)) text →
  indexed (parse_document d (Text text) st).2 t d
    (occurrences t (document_tokens (stopwords (self st)) text)).
Proof.
  intros Ht. destruct (parse_document_text d text st) as [line ->].
  rewrite <- Counter_count.
  apply (index_tokens_indexed _ _ d st). by apply Counter_keys.
Qed.

(** ** Sequences of [parse_document] calls *)

Lemma init_wf dir urls : wf (init dir urls).
Proof. split; intros *; simpl; by rewrite lookup_empty. Qed.

Lemma init_consistent dir urls : consistent (init dir urls).
Proof.
  intros t d. unfold posting, frequency. simpl. rewrite !lookup_empty. simpl.
  split; intros (? & ? & ?); done.
Qed.

Lemma parse_all_consistent calls st :
  wf st → consistent st →
  wf (parse_all calls st) ∧ consistent (parse_all calls st).
Proof.
  revert st. induction calls as [|[filename content] calls IH]; intros st Hwf Hc.
  - done.
  - simpl. destruct (parse_document_consistent filename content st Hwf Hc).
    by apply IH.
Qed.

Lemma parse_all_stopwords calls st :
  stopwords (self (parse_all calls st)) = stopwords (self st).
Proof.
  revert st. induction calls as [|[filename content] calls IH]; intros st; [done|].
  simpl. by rewrite IH, parse_document_stopwords.
Qed.

Lemma parse_all_keeps calls st t d n :
  indexed st t d n → d ∉ calls.*1 → indexed (parse_all calls st) t d n.
Proof.
  revert st. induction calls as [|[filename content] calls IH]; intros st Hi Hd.
  - done.
  - simpl in *. apply not_elem_of_cons in Hd as [Hne Hd].
    apply IH; [|done]. by apply parse_document_keeps.
Qed.

Lemma parse_all_indexed calls st d text t :
  NoDup calls.*1 → (d, Text text) ∈ calls →
  t ∈ document_tokens (stopwords (self st)) text →
  indexed (parse_all calls st) t d
    (occurrences t (document_tokens (stopwords (self st)) text)).
Proof.
  revert st. induction calls as [|[filename content] calls IH];
    intros st Hnd Hin Ht.
  { by apply elem_of_nil in Hin. }
  simpl in *. apply NoDup_cons in Hnd as [Hfresh Hnd].
  apply elem_of_cons in Hin as [[= <- <-]|Hin].
  - apply parse_all_keeps; [|done]. by apply parse_document_indexed.
  - rewrite <- (parse_document_stopwords filename content st).
    apply IH; [done | done |]. by rewrite parse_document_stopwords.
Qed.

(** ** [build_index] *)

Lemma index_token_same n token filename st1 st2 :
  same_index st1 st2 →
  same_index (index_token n token filename st1).2
             (index_token n token filename st2).2.
Proof.
  intros (Hh & Hix & Htf & Hsw).
  destruct (index_token_frame n token filename st1) as (_ & Hs1 & _).
  destruct (index_token_frame n token filename st2) as (_ & Hs2 & _).
  assert (heap (index_token n token filename st1).2
          = heap (index_token n token filename st2).2
          ∧ inverted_index (self (index_token n token filename st1).2)
            = inverted_index (self (index_token n token filename st2).2))
    as [Hh' Hix'].
  { destruct (inverted_index (self st1) !! token) as [l|] eqn:Hl.
    - destruct (index_token_present n token filename st1 l Hl) as [-> ->].
      rewrite Hix in Hl.
      destruct (index_token_present n token filename st2 l Hl) as [-> ->].
      unfold deref. by rewrite Hh, Hix.
    - destruct (index_token_absent n token filename st1 Hl) as [-> ->].
      rewrite Hix in Hl.
      destruct (index_token_absent n token filename st2 Hl) as [-> ->].
      by rewrite Hh, Hix. }
  split_and!; [done | done | | congruence].
  by rewrite !index_token_tf, Htf.
Qed.

Lemma index_tokens_same tc keys filename st1 st2 :
  same_index st1 st2 →
  same_index (index_tokens tc keys filename st1).2
             (index_tokens tc keys filename st2).2.
Proof.
  revert st1 st2. induction keys as [|k keys IH]; intros st1 st2 Hs; [done|].
  rewrite !index_tokens_cons. by apply IH, index_token_same.
Qed.

Lemma parse_document_same filename content st1 st2 :
  same_index st1 st2 →
  (parse_document filename content st1).1 = (parse_document filename content st2).1
  ∧ same_index (parse_document filename content st1).2
               (parse_document filename content st2).2.
Proof.
  intros Hs. destruct content as [text|e].
  - destruct (parse_document_text filename text st1) as [line1 ->].
    destruct (parse_document_text filename text st2) as [line2 ->].
    split; [done|]. unfold index_text.
    destruct Hs as (Hh & Hix & Htf & Hsw). rewrite Hsw.
    by apply (index_tokens_same _ _ filename st1 st2).
  - destruct (parse_document_raised filename e st1) as [line1 ->].
    by destruct (parse_document_raised filename e st2) as [line2 ->].
Qed.

Lemma build_index_loop_same listing st1 st2 :
  same_index st1 st2 →
  same_index (build_index_loop listing st1).2 (parse_all (html_entries listing) st2).
Proof.
  revert st1 st2.
  induction listing as [|[filename content] listing IH]; intros st1 st2 Hs; [done|].
  unfold html_entries.
  destruct (endswith filename ".html" || endswith filename ".htm") eqn:Hhtml.
  - rewrite filter_cons_True by (simpl; by rewrite Hhtml).
    simpl. munfold. rewrite Hhtml.
    destruct (parse_document_same filename content st1 st2 Hs) as [Hok Hs'].
    destruct (parse_document filename content st1) as [ok st1'].
    simpl in Hok, Hs'. clear Hok.
    destruct ok; simpl; [|exact (IH _ _ Hs')].
    refine (IH (set_documents _ st1') _ _). exact Hs'.
  - rewrite filter_cons_False by (simpl; rewrite Hhtml; intros []).
    simpl. munfold. rewrite Hhtml. exact (IH _ _ Hs).
Qed.

(** [build_index] builds the index that parsing the HTML entries of the
    listing, in order, builds. *)
Lemma build_index_parse_all listing st :
  same_index (build_index listing st).2 (parse_all (html_entries listing) st).
Proof.
  unfold build_index. munfold. simpl.
  pose proof (build_index_loop_same listing
    (set_documents []
       (mkState (heap st) (self st)
          (stdout st ++ ["Building index from documents in '"
                         +:+ webpages_dir (self st) +:+ "'..."]))) st) as Hs.
  destruct (build_index_loop listing _) as [[] st1]. simpl in *.
  by apply Hs.
Qed.

(** ** [search] changes neither the engine nor an existing set object *)

Lemma search_keeps set_iter q st :
  self (search set_iter q st).2 = self st
  ∧ heap st ⊆ heap (search set_iter q st).2.
Proof.
  destruct (decide (strip q = "")) as [Hq|Hq].
  { by rewrite search_blank. }
  destruct (decide (query_terms (stopwords (self st)) q = [])) as [Ht|Ht].
  { by rewrite search_all_stopwords. }
  rewrite search_with_terms by done. unfold search_terms.
  destruct (match_terms _ None st) as [r st1] eqn:Hrun.
  destruct (match_terms_frame st _ _ _ _ _ Hrun) as (Hself & Hheap & _);
    [done | done | done |].
  destruct r as [[m|]|res]; simpl; [|done..].
  destruct (decide (deref st1 m = ∅)); simpl; done.
Qed.

(** * The claims *)

(** C2.  After any sequence of [parse_document] calls on a new engine (on
    distinct documents or not, failed extractions included), a document
    is in the posting set of a term if and only if the term-frequency
    table has an entry for the pair and the entry is positive. *)
Theorem index_and_table_agree dir urls calls t d :
  (∃ S, posting (parse_all calls (init dir urls)) t = Some S ∧ d ∈ S)
  ↔ (∃ n, frequency (parse_all calls (init dir urls)) t d = Some n ∧ 0 < n).
Proof.
  destruct (parse_all_consistent calls (init dir urls)) as [_ Hc].
  - apply init_wf.
  - apply init_consistent.
  - apply Hc.
Qed.

(** C10.  Indexing the same (filename, text) pair a second time leaves
    the engine (the inverted index and the term-frequency table among its
    fields) and every set object as the first call left them. *)
Theorem parse_document_idempotent filename content st :
  self (parse_document filename content (parse_document filename content st).2).2
    = self (parse_document filename content st).2
  ∧ heap (parse_document filename content (parse_document filename content st).2).2
    = heap (parse_document filename content st).2.
Proof.
  destruct content as [text|e].
  - destruct (parse_document_text filename text st) as [line ->].
    change ((true, (print line (index_text filename text st)).2).2)
      with (print line (index_text filename text st)).2.
    destruct (parse_document_text filename text
                (print line (index_text filename text st)).2) as [line' ->].
    assert (index_text filename text (print line (index_text filename text st)).2
            = (print line (index_text filename text st)).2) as ->; [|done].
    unfold index_text at 1.
    change (stopwords (self (print line (index_text filename text st)).2))
      with (stopwords (self (index_text filename text st))).
    assert (stopwords (self (index_text filename text st)) = stopwords (self st))
      as -> by apply index_tokens_frame.
    rewrite index_tokens_id; [done|].
    intros k Hk. apply (index_tokens_indexed _ _ filename st _ Hk).
  - destruct (parse_document_raised filename e st) as [line ->].
    change ((false, (print line st).2).2) with (print line st).2.
    by destruct (parse_document_raised filename e (print line st).2) as [line' ->].
Qed.

(** C7.  The pipeline of [parse_document] and the pipeline of [search]
    yield the same sequence of terms on every string, and neither method
    changes the stopword set they both read. *)
Theorem normalisation_shared set_iter st s filename content q :
  document_tokens (stopwords (self st)) s = query_terms (stopwords (self st)) s
  ∧ stopwords (self (parse_document filename content st).2) = stopwords (self st)
  ∧ stopwords (self (search set_iter q st).2) = stopwords (self st).
Proof.
  split_and!.
  - reflexivity.
  - apply parse_document_stopwords.
  - by destruct (search_keeps set_iter q st) as [-> _].
Qed.

(** C9.  [search] leaves the engine as it was: the fields of [self] (the
    index, the term-frequency table, the documents, the stopwords, the URL
    mapping) are the same after the call, every set object that existed
    before the call has the same contents, and so every term has the same
    posting set. *)
Theorem search_frame set_iter q st :
  self (search set_iter q st).2 = self st
  ∧ heap st ⊆ heap (search set_iter q st).2
  ∧ ∀ t S, posting st t = Some S → posting (search set_iter q st).2 t = Some S.
Proof.
  destruct (search_keeps set_iter q st) as [Hself Hheap].
  split_and!; [done | done |].
  intros t S. unfold posting. rewrite Hself.
  destruct (inverted_index (self st) !! t) as [l|]; [|done]. simpl.
  intros HS. by eapply lookup_weaken.
Qed.

(** C6.  The pairs returned by [search] are in non-increasing order of
    score. *)
Theorem search_sorted set_iter q st :
  StronglySorted by_score_desc (search set_iter q st).1.
Proof.
  destruct (decide (strip q = "")) as [Hq|Hq].
  { rewrite search_blank by done. constructor. }
  destruct (decide (query_terms (stopwords (self st)) q = [])) as [Ht|Ht].
  { rewrite search_all_stopwords by done. constructor. }
  rewrite search_with_terms by done. unfold search_terms.
  destruct (match_terms _ None st) as [r st1] eqn:Hrun.
  destruct (match_terms_frame st _ _ _ _ _ Hrun) as (_ & _ & _ & Hret);
    [done | done | done |].
  destruct r as [[m|]|res]; simpl.
  - destruct (decide (deref st1 m = ∅)); simpl; [constructor|].
    apply sort_desc_sorted.
  - constructor.
  - rewrite (Hret res) by done. constructor.
Qed.

Lemma query_terms_on_nil L sw q :
  query_terms_on L sw q = [] →
  Forall (λ t, t ∈ sw ∨ (lib_len L t ≤ 1)%nat) (lib_findall L (lib_lower L q)).
Proof.
  unfold query_terms_on. induction (lib_findall L (lib_lower L q)) as [|t l IH].
  - constructor.
  - rewrite filter_cons. case_decide as Hk; [done|].
    intros Hl. constructor; [|by apply IH].
    destruct (decide (t ∈ sw)); [by left | right].
    destruct (decide (1 < lib_len L t)); [tauto | lia].
Qed.

Lemma search_on_ascii set_iter q st :
  search_on ascii_lib set_iter q st = search set_iter q st.
Proof. reflexivity. Qed.

(** C8.  For a query whose normalised term list is empty (each of its
    tokens is a stopword or has at most one character), whatever the
    tables of the string library, [search] returns the empty list, leaves
    the engine and the set objects as they were and prints one line: the
    empty-query line when [query.strip()] is empty (the query is blank),
    the stopwords-only line otherwise; the two lines differ.  [search] is
    the instance for the ASCII tables, where an ASCII query is blank
    exactly when it has whitespace characters only. *)
Theorem empty_terms_disposition (L : StrLib) set_iter q st :
  query_terms_on L (stopwords (self st)) q = [] →
  search_on L set_iter q st
    = ([], mkState (heap st) (self st)
             (stdout st ++ [if decide (lib_strip L q = "") then msg_empty_query
                            else msg_all_stopwords]))
  ∧ Forall (λ t, t ∈ stopwords (self st) ∨ (lib_len L t ≤ 1)%nat)
      (lib_findall L (lib_lower L q))
  ∧ msg_empty_query ≠ msg_all_stopwords
  ∧ search_on ascii_lib set_iter q st = search set_iter q st
  ∧ (is_ascii q = true →
     (lib_strip ascii_lib q = "" ↔ all_chars is_space q = true)).
Proof.
  intros Ht.
  split_and!; [| by apply query_terms_on_nil | done | reflexivity
               | intros _; apply strip_empty_iff].
  unfold search_on. destruct (decide (lib_strip L q = "")) as [Hq|Hq].
  - reflexivity.
  - munfold. simpl. by rewrite Ht.
Qed.

(** C5.  When the term list of the query has a term that is not a key of
    the index, [search] returns the empty list and prints the line naming
    the first such term; the terms after it play no part: any query whose
    term list agrees up to that term gives the same result and the same
    final state. *)
Theorem absent_term_short_circuit set_iter q st pre t rest :
  query_terms (stopwords (self st)) q = (pre ++ t :: rest)%list →
  (∀ u, u ∈ pre → is_Some (inverted_index (self st) !! u)) →
  inverted_index (self st) !! t = None →
  (search set_iter q st).1 = []
  ∧ stdout (search set_iter q st).2 = (stdout st ++ [msg_term_not_found t])%list
  ∧ ∀ q' rest', query_terms (stopwords (self st)) q' = (pre ++ t :: rest')%list →
                search set_iter q' st = search set_iter q st.
Proof.
  intros Hq Hpre Ht.
  destruct (match_terms_absent pre t None st Hpre Ht) as (st' & _ & Hout & Hrun).
  assert (∀ q' rest', query_terms (stopwords (self st)) q' = (pre ++ t :: rest')%list →
            search set_iter q' st = ([], st')) as Hall.
  { intros q' rest' Hq'. rewrite search_with_terms.
    - unfold search_terms. by rewrite Hq', Hrun.
    - rewrite Hq'. by destruct pre. }
  rewrite (Hall q rest Hq). split_and!; [done | done |].
  intros q' rest' Hq'. by apply (Hall q' rest').
Qed.

(** C4.  When the term list of the query is [t1; t2] and the two posting
    sets are disjoint (non-empty, as in the claim, or not), [search]
    returns the empty list and prints the no-match line. *)
Theorem disjoint_terms_no_result set_iter q st t1 t2 S1 S2 :
  query_terms (stopwords (self st)) q = [t1; t2] →
  posting st t1 = Some S1 → posting st t2 = Some S2 →
  S1 ∩ S2 = ∅ →
  (search set_iter q st).1 = []
  ∧ stdout (search set_iter q st).2 = (stdout st ++ [msg_no_match])%list.
Proof.
  intros Hq H1 H2 Hdisj.
  rewrite search_with_terms by (by rewrite Hq). rewrite Hq.
  rewrite search_terms_present.
  2:{ intros u [->|[->|Hu%elem_of_nil]%elem_of_cons]%elem_of_cons; eauto; done. }
  unfold inter_postings. simpl. rewrite H1, H2. simpl.
  by rewrite decide_True.
Qed.

Section ranked.
Variable set_iter : gset string → list string.
Hypothesis set_iter_perm : ∀ X, set_iter X ≡ₚ elements X.

(** C1, as the code has it.  For a document in the posting set of every
    query term, [search] returns the document with the sum of its term
    frequencies over the list of normalised query terms, a term repeated
    in the query being added once per occurrence; no other score is
    returned for the document. *)
Theorem search_score_counts_repeats q st doc :
  query_terms (stopwords (self st)) q ≠ [] →
  (∀ u, u ∈ query_terms (stopwords (self st)) q →
        ∃ S, posting st u = Some S ∧ doc ∈ S) →
  (doc, sum_list ((λ t, tf_count st t doc) <$> query_terms (stopwords (self st)) q))
    ∈ (search set_iter q st).1
  ∧ ∀ s, (doc, s) ∈ (search set_iter q st).1 →
         s = sum_list ((λ t, tf_count st t doc) <$> query_terms (stopwords (self st)) q).
Proof using set_iter_perm.
  intros Hne Hall. split.
  - by apply search_hit.
  - intros s. apply search_result_score.
Qed.

(** C3.  In a corpus of distinct documents indexed by a new engine, a
    document [d] whose token stream has the term [t] exactly [n] times
    ([n] at least 1: terms of the token stream are neither stopwords nor
    of length 1) is returned by the query [t] with score [n]. *)
Theorem single_term_score dir urls calls d text t n :
  NoDup calls.*1 → (d, Text text) ∈ calls →
  occurrences t (document_tokens _load_stopwords text) = n → 0 < n →
  (d, n) ∈ (search set_iter t (parse_all calls (init dir urls))).1.
Proof using set_iter_perm.
  intros Hnd Hin <- Ht%occurrences_pos_inv.
  pose proof (parse_all_indexed calls (init dir urls) d text t Hnd Hin Ht)
    as [Hpost Hfreq].
  pose proof (parse_all_stopwords calls (init dir urls)) as Hsw.
  pose proof (query_terms_token _ _ _ Ht) as Hq.
  pose proof (search_hit set_iter set_iter_perm t (parse_all calls (init dir urls)) d)
    as Hhit.
  rewrite Hsw in Hhit. simpl in Hhit. rewrite Hq in Hhit.
  unfold score, tf_count in Hhit. simpl in Hhit, Hfreq.
  rewrite Hfreq in Hhit. simpl in Hhit. rewrite Nat.add_0_r in Hhit.
  apply Hhit; [done|].
  intros u ->%list_elem_of_singleton. done.
Qed.

End ranked.

(** ** The claims on the example corpus *)

Lemma elements_perm (X : gset string) : elements X ≡ₚ elements X.
Proof. reflexivity. Defined.

(** C1 as stated fails: "cloud cloud" scores docA.html 2, while "cloud"
    scores it 1, which is also the sum over the set of query terms. *)
Lemma repeated_term_scores_twice :
  (search elements "cloud cloud" engine_ex).1
    = [("docC.html", 2); ("docA.html", 2)]
  ∧ (search elements "cloud" engine_ex).1
    = [("docC.html", 1); ("docA.html", 1)]
  ∧ sum_list ((λ t, tf_count engine_ex t "docA.html")
                <$> elements (list_to_set (C := gset string)
                      (query_terms (stopwords (self engine_ex)) "cloud cloud")))
    = 1.
Proof. vm_compute. done. Qed.

Lemma search_score_counts_repeats_witness :
  ("docA.html",
   sum_list ((λ t, tf_count engine_ex t "docA.html")
               <$> query_terms (stopwords (self engine_ex)) "cloud cloud security"))
    ∈ (search elements "cloud cloud security" engine_ex).1
  ∧ ∀ s, ("docA.html", s) ∈ (search elements "cloud cloud security" engine_ex).1 →
         s = sum_list ((λ t, tf_count engine_ex t "docA.html")
               <$> query_terms (stopwords (self engine_ex)) "cloud cloud security").
Proof.
  apply (search_score_counts_repeats elements elements_perm
           "cloud cloud security" engine_ex "docA.html").
  - vm_compute. discriminate.
  - intros u Hu.
    assert (query_terms (stopwords (self engine_ex)) "cloud cloud security"
            = ["cloud"; "cloud"; "security"]) as Hq by (vm_compute; reflexivity).
    rewrite Hq in Hu.
    assert (∃ S, posting engine_ex "cloud" = Some S ∧ "docA.html" ∈ S) as Hc.
    { eexists. split; [vm_compute; reflexivity | vm_compute; reflexivity]. }
    assert (∃ S, posting engine_ex "security" = Some S ∧ "docA.html" ∈ S) as Hs.
    { eexists. split; [vm_compute; reflexivity | vm_compute; reflexivity]. }
    apply elem_of_cons in Hu as [->|Hu]; [exact Hc|].
    apply elem_of_cons in Hu as [->|Hu]; [exact Hc|].
    apply list_elem_of_singleton in Hu as ->. exact Hs.
Defined.

Lemma single_term_score_witness :
  ("docA.html", 1)
    ∈ (search elements "cloud" (parse_all corpus_ex (init "webpages" ∅))).1.
Proof.
  apply (single_term_score elements elements_perm "webpages" ∅ corpus_ex
           "docA.html" "cloud security threats" "cloud" 1).
  - apply (bool_decide_unpack _). vm_compute. exact I.
  - unfold corpus_ex. left.
  - vm_compute. reflexivity.
  - lia.
Defined.

Lemma disjoint_terms_no_result_witness :
  (search elements "threats malware" engine_ex).1 = []
  ∧ stdout (search elements "threats malware" engine_ex).2
    = (stdout engine_ex ++ [msg_no_match])%list.
Proof.
  apply (disjoint_terms_no_result elements "threats malware" engine_ex
           "threats" "malware" {["docA.html"]} {["docB.html"]});
    vm_compute; reflexivity.
Defined.

Lemma absent_term_short_circuit_witness :
  (search elements "malware crypto" engine_ex).1 = []
  ∧ stdout (search elements "malware crypto" engine_ex).2
    = (stdout engine_ex ++ [msg_term_not_found "crypto"])%list
  ∧ ∀ q' rest',
      query_terms (stopwords (self engine_ex)) q'
        = (["malware"] ++ "crypto" :: rest')%list →
      search elements q' engine_ex = search elements "malware crypto" engine_ex.
Proof.
  apply (absent_term_short_circuit elements "malware crypto" engine_ex
           ["malware"] "crypto" []).
  - vm_compute. reflexivity.
  - intros u ->%list_elem_of_singleton. vm_compute. eauto.
  - vm_compute. reflexivity.
Defined.

Lemma empty_terms_disposition_witness :
  search_on ascii_lib elements "the and is" engine_ex
    = ([], mkState (heap engine_ex) (self engine_ex)
             (stdout engine_ex
                ++ [if decide (lib_strip ascii_lib "the and is" = "")
                    then msg_empty_query else msg_all_stopwords]))
  ∧ Forall (λ t, t ∈ stopwords (self engine_ex) ∨ (lib_len ascii_lib t ≤ 1)%nat)
      (lib_findall ascii_lib (lib_lower ascii_lib "the and is"))
  ∧ msg_empty_query ≠ msg_all_stopwords
  ∧ search_on ascii_lib elements "the and is" engine_ex
    = search elements "the and is" engine_ex
  ∧ (is_ascii "the and is" = true →
     (lib_strip ascii_lib "the and is" = ""
      ↔ all_chars is_space "the and is" = true)).
Proof.
  apply (empty_terms_disposition ascii_lib elements "the and is" engine_ex).
  vm_compute. reflexivity.
Defined.

Example empty_query_ex :
  search elements "  " engine_ex
  = ([], mkState (heap engine_ex) (self engine_ex)
           (stdout engine_ex ++ [msg_empty_query])).
Proof. vm_compute. reflexivity. Qed.

Example build_index_ex :
  documents (self (build_index
    [("a.html", Text "cloud security"); ("notes.txt", Text "cloud");
     ("b.htm", Raised "codec"); ("c.htm", Text "Cloud, cloud!")]
    (init "webpages" ∅)).2)
  = ["a.html"; "c.htm"].
Proof. vm_compute. reflexivity. Qed.
(** * Further properties of the code *)

(** ** Normalisation *)

Lemma lower_idemp s : lower (lower s) = lower s.
Proof. induction s as [|c s IH]; simpl; [done|]. by rewrite lower_char_idemp, IH. Qed.

Lemma lower_char_space c : is_space (lower_char c) = is_space c.
Proof. destruct c as [[] [] [] [] [] [] [] []]; vm_compute; reflexivity. Qed.

Lemma lower_char_word c : is_word (lower_char c) = is_word c.
Proof. destruct c as [[] [] [] [] [] [] [] []]; vm_compute; reflexivity. Qed.

Lemma lower_all_space s : all_chars is_space (lower s) = all_chars is_space s.
Proof. induction s as [|c s IH]; simpl; [done|]. by rewrite lower_char_space, IH. Qed.

Lemma strip_lower_empty s : strip (lower s) = "" ↔ strip s = "".
Proof. by rewrite !strip_empty_iff, lower_all_space. Qed.

Lemma query_terms_lower sw q : query_terms sw (lower q) = query_terms sw q.
Proof. unfold query_terms. by rewrite lower_idemp. Qed.

Lemma lower_app (a b : string) : lower (a +:+ b) = lower a +:+ lower b.
Proof. induction a as [|c a IH]; [done|]. rewrite app_cons. simpl. by rewrite IH. Qed.

Lemma scan_separator c (a b cur : string) :
  is_word c = false →
  scan cur (a +:+ String c b) = (scan cur a ++ scan "" b)%list.
Proof.
  intros Hc. revert cur. induction a as [|x a IH]; intros cur.
  - change ("" +:+ String c b) with (String c b). simpl. by rewrite Hc.
  - rewrite app_cons. simpl. destruct (is_word x); [apply IH|].
    by rewrite IH, app_assoc.
Qed.

(** X1.  The case of a query does not matter, nor does the case of a
    document: [search] on the lowered query, and [parse_document] on the
    lowered text, do what they do on the original. *)
Theorem case_insensitive set_iter q filename text st :
  search set_iter (lower q) st = search set_iter q st
  ∧ parse_document filename (Text (lower text)) st
    = parse_document filename (Text text) st.
Proof.
  split.
  - destruct (decide (strip q = "")) as [Hq|Hq].
    { rewrite !search_blank; [done | done | by apply strip_lower_empty]. }
    assert (strip (lower q) ≠ "") as Hq' by (by rewrite strip_lower_empty).
    destruct (decide (query_terms (stopwords (self st)) q = [])) as [Ht|Ht].
    { rewrite !search_all_stopwords; [done..|]. by rewrite query_terms_lower. }
    rewrite !search_with_terms; rewrite ?query_terms_lower; done.
  - unfold parse_document, document_tokens. by rewrite lower_idemp.
Qed.

Lemma query_terms_separator sw c (a b : string) :
  is_word c = false →
  query_terms sw (a +:+ String c b)
  = (query_terms sw a ++ query_terms sw b)%list.
Proof.
  intros Hc. unfold query_terms, findall_words.
  rewrite lower_app. simpl.
  rewrite scan_separator by (by rewrite lower_char_word).
  by rewrite filter_app.
Qed.

(** X2.  In ASCII text a character that is not a word character separates
    tokens and leaves no trace: the terms of a text cut at such a character
    are the terms of the part before it followed by the terms of the part
    after it. *)
Theorem tokens_split_at_separator sw c (a b : string) :
  is_ascii (a +:+ String c b) = true →
  is_word c = false →
  document_tokens sw (a +:+ String c b)
  = (document_tokens sw a ++ document_tokens sw b)%list.
Proof.
  intros _ Hc. unfold document_tokens.
  assert (findall_words (lower (a +:+ String c b))
          = (findall_words (lower a) ++ findall_words (lower b))%list) as ->.
  { unfold findall_words. rewrite lower_app. simpl.
    apply scan_separator. by rewrite lower_char_word. }
  apply filter_app.
Qed.

Lemma document_tokens_normal sw text t :
  t ∈ document_tokens sw text →
  (t ∉ sw) ∧ 1 < String.length t ∧ all_chars lower_word t = true ∧ lower t = t.
Proof.
  unfold document_tokens. intros [[Hsw Hlen] Ht]%list_elem_of_filter.
  apply (scan_lower_tokens text "") in Ht as [_ Hlw]; [|done].
  destruct (lower_word_fixed t Hlw) as [Hl _]. done.
Qed.

(** X3.  Every term the normalisation keeps of an ASCII text is a run of
    lowercase word characters, longer than one character, that is not a
    stopword; lowering it again changes nothing. *)
Theorem terms_are_normal sw text t :
  is_ascii text = true →
  t ∈ document_tokens sw text →
  (t ∉ sw) ∧ 1 < String.length t ∧ all_chars lower_word t = true ∧ lower t = t.
Proof.
  intros _ Ht.
  assert (t ∈ findall_words (lower text)) as Hw.
  { unfold document_tokens in Ht. by apply list_elem_of_filter in Ht as [_ ?]. }
  apply list_elem_of_filter in Ht as [[Hsw Hlen] _].
  split_and!; [done | done | |].
  - by apply (scan_lower_tokens text "" t).
  - apply lower_word_fixed. by apply (scan_lower_tokens text "" t).
Qed.

(** X4.  An ASCII query that is not blank and has no word character
    (punctuation only) is answered like a stopword-only query: the empty
    list, the stopwords-only line, nothing else changed. *)
Theorem punctuation_only_query set_iter q st :
  is_ascii q = true →
  strip q ≠ "" → all_chars (λ c, negb (is_word c)) q = true →
  search set_iter q st = ([], (print msg_all_stopwords st).2).
Proof.
  intros _ Hq Hp. apply search_all_stopwords; [done|].
  unfold query_terms, findall_words. rewrite scan_no_word; [done|].
  clear Hq. induction q as [|c q IH]; [done|]. simpl in *.
  apply andb_true_iff in Hp as [Hc Hp]. rewrite lower_char_word, Hc. simpl. auto.
Qed.

(** ** The inverted index after a sequence of [parse_document] calls *)

Lemma index_tokens_wf tc keys filename st :
  wf st → wf (index_tokens tc keys filename st).2.
Proof.
  revert st. induction keys as [|k keys IH]; intros st Hwf; [done|].
  rewrite index_tokens_cons. by apply IH, index_token_wf.
Qed.

Lemma parse_document_wf filename content st :
  wf st → wf (parse_document filename content st).2.
Proof.
  intros Hwf. destruct content as [text|e].
  - destruct (parse_document_text filename text st) as [line ->].
    by apply (index_tokens_wf _ _ filename st).
  - by destruct (parse_document_raised filename e st) as [line ->].
Qed.

Lemma parse_all_wf calls st : wf st → wf (parse_all calls st).
Proof.
  revert st. induction calls as [|[filename content] calls IH]; intros st Hwf.
  - done.
  - simpl. by apply IH, parse_document_wf.
Qed.

Lemma index_tokens_posting tc keys filename st t :
  wf st →
  posting (index_tokens tc keys filename st).2 t
  = if decide (t ∈ keys) then Some ({[filename]} ∪ default ∅ (posting st t))
    else posting st t.
Proof.
  revert st. induction keys as [|k keys IH]; intros st Hwf.
  - rewrite decide_False; [done|]. apply not_elem_of_nil.
  - rewrite index_tokens_cons, IH by (by apply index_token_wf).
    destruct (decide (t = k)) as [->|Hne].
    + rewrite index_token_posting. rewrite (decide_True (P := k ∈ k :: keys)) by left.
      case_decide; simpl; [|done]. f_equal.
      by rewrite (assoc_L (∪)), (idemp_L (∪)).
    + rewrite index_token_posting_ne by done.
      destruct (decide (t ∈ keys)) as [Hin|Hin].
      * rewrite decide_True; [done | by right].
      * rewrite decide_False; [done|]. by intros [?|?]%elem_of_cons.
Qed.

Lemma parse_document_posting filename content st t :
  wf st →
  posting (parse_document filename content st).2 t
  = match containing (stopwords (self st)) t [(filename, content)] with
    | [] => posting st t
    | _ => Some ({[filename]} ∪ default ∅ (posting st t))
    end.
Proof.
  intros Hwf. unfold containing. simpl. destruct content as [text|e].
  - destruct (parse_document_text filename text st) as [line ->].
    change (posting (true, (print line (index_text filename text st)).2).2 t)
      with (posting (index_text filename text st) t).
    unfold index_text. rewrite index_tokens_posting by done.
    destruct (decide (t ∈ document_tokens (stopwords (self st)) text)) as [Hin|Hin].
    + rewrite decide_True by (by apply Counter_keys). done.
    + rewrite decide_False; [done|]. intros Hk. by apply Hin, Counter_keys.
  - by destruct (parse_document_raised filename e st) as [line ->].
Qed.

Lemma containing_cons sw t call calls :
  containing sw t (call :: calls)
  = (containing sw t [call] ++ containing sw t calls)%list.
Proof. unfold containing. simpl. by rewrite app_nil_r. Qed.

Lemma elem_of_containing sw t calls d :
  d ∈ containing sw t calls
  ↔ ∃ text, (d, Text text) ∈ calls ∧ t ∈ document_tokens sw text.
Proof.
  induction calls as [|[filename content] calls IH].
  - split; [by intros ?%elem_of_nil | by intros (? & ?%elem_of_nil & _)].
  - rewrite containing_cons, elem_of_app, IH. split.
    + intros [Hd|(text & Hin & Ht)].
      * unfold containing in Hd. simpl in Hd. destruct content as [text|e].
        -- case_decide as Ht; simpl in Hd.
           ++ apply list_elem_of_singleton in Hd as ->. exists text. split; [left | done].
           ++ by apply elem_of_nil in Hd.
        -- by apply elem_of_nil in Hd.
      * exists text. split; [by right | done].
    + intros (text & [[= <- <-]|Hin]%elem_of_cons & Ht).
      * left. unfold containing. simpl. rewrite decide_True by done. left.
      * right. eauto.
Qed.

(** The posting set of a term after a sequence of calls, from a state
    where no two terms share a set object. *)
Lemma parse_all_posting calls st t :
  wf st →
  posting (parse_all calls st) t
  = match containing (stopwords (self st)) t calls with
    | [] => posting st t
    | ds => Some (list_to_set ds ∪ default ∅ (posting st t))
    end.
Proof.
  revert st. induction calls as [|[filename content] calls IH]; intros st Hwf.
  - done.
  - rewrite (containing_cons _ _ (filename, content) calls).
    change (parse_all ((filename, content) :: calls) st)
      with (parse_all calls (parse_document filename content st).2).
    rewrite IH by (by apply parse_document_wf).
    rewrite parse_document_stopwords, parse_document_posting by done.
    destruct (containing (stopwords (self st)) t [(filename, content)])
      as [|d ds] eqn:Hc.
    + done.
    + assert (d = filename ∧ ds = []) as [-> ->].
      { unfold containing in Hc. simpl in Hc. destruct content; [|done].
        case_decide; simpl in Hc; [|done]. by injection Hc as <- <-. }
      simpl. destruct (containing (stopwords (self st)) t calls); simpl;
        f_equal; set_unfold; intros x; tauto.
Qed.

Lemma init_posting dir urls t : posting (init dir urls) t = None.
Proof. unfold posting. simpl. by rewrite lookup_empty. Qed.

(** X5.  The inverted index built by a new engine is exact: a term has a
    posting set exactly when some successfully extracted document has it
    in its token stream, and the posting set holds exactly the names of
    those documents. *)
Theorem inverted_index_exact dir urls calls t :
  (is_Some (posting (parse_all calls (init dir urls)) t)
   ↔ ∃ d text, (d, Text text) ∈ calls ∧ t ∈ document_tokens _load_stopwords text)
  ∧ ∀ S d, posting (parse_all calls (init dir urls)) t = Some S →
      (d ∈ S ↔ ∃ text, (d, Text text) ∈ calls
                       ∧ t ∈ document_tokens _load_stopwords text).
Proof.
  rewrite parse_all_posting by apply init_wf. rewrite init_posting. simpl.
  pose proof (elem_of_containing _load_stopwords t calls) as Hc.
  destruct (containing _load_stopwords t calls) as [|d0 ds].
  - split.
    + split; [by intros [? ?]|]. intros (d & text & Hin).
      assert (d ∈ @nil string) as Hd by (apply Hc; eauto).
      by apply elem_of_nil in Hd.
    + done.
  - split.
    + split; [|eauto]. intros _. destruct (Hc d0) as [(text & ?) _]; [left|]. eauto.
    + intros S d [= <-]. rewrite <- Hc. set_unfold. tauto.
Qed.

(** X6.  Every key of the inverted index a new engine builds from ASCII
    texts is a normalised term (not a stopword, longer than one character,
    lowercase word characters only) and refers to a non-empty set: a term
    is a key only if some document has it. *)
Theorem index_keys_are_terms dir urls calls t l :
  (∀ d text, (d, Text text) ∈ calls → is_ascii text = true) →
  inverted_index (self (parse_all calls (init dir urls))) !! t = Some l →
  (t ∉ _load_stopwords) ∧ 1 < String.length t ∧ all_chars lower_word t = true
  ∧ ∃ S, heap (parse_all calls (init dir urls)) !! l = Some S ∧ S ≠ ∅.
Proof.
  intros _ Hl.
  destruct (parse_all_wf calls (init dir urls) (init_wf dir urls)) as [Halloc _].
  destruct (Halloc t l Hl) as [S HS].
  assert (posting (parse_all calls (init dir urls)) t = Some S) as Hp.
  { unfold posting. by rewrite Hl. }
  rewrite parse_all_posting, init_posting in Hp by apply init_wf. simpl in Hp.
  pose proof (elem_of_containing _load_stopwords t calls) as Hc.
  destruct (containing _load_stopwords t calls) as [|d ds]; [done|].
  destruct (Hc d) as [(text & _ & Ht) _]; [left|].
  destruct (document_tokens_normal _ _ _ Ht) as (? & ? & ? & _).
  split_and!; [done..|]. exists S. split; [done|].
  injection Hp as <-. intros He.
  assert (d ∈ (∅ : gset string)) as Hd; [|by apply not_elem_of_empty in Hd].
  rewrite <- He. set_unfold. tauto.
Qed.

(** X7.  After any sequence of calls on a new engine, every entry of the
    index refers to an existing set object and no two terms share one: an
    insertion into one posting set never shows in another. *)
Theorem index_entries_unshared dir urls calls :
  (∀ t l, inverted_index (self (parse_all calls (init dir urls))) !! t = Some l →
          is_Some (heap (parse_all calls (init dir urls)) !! l))
  ∧ (∀ t1 t2 l,
       inverted_index (self (parse_all calls (init dir urls))) !! t1 = Some l →
       inverted_index (self (parse_all calls (init dir urls))) !! t2 = Some l →
       t1 = t2).
Proof. apply parse_all_wf, init_wf. Qed.

(** ** The term-frequency table after a sequence of calls *)

Lemma index_tokens_frequency tc keys filename st t d :
  frequency (index_tokens tc keys filename st).2 t d
  = if decide (t ∈ keys ∧ d = filename) then Some (counts_getitem tc t)
    else frequency st t d.
Proof.
  revert st. induction keys as [|k keys IH]; intros st.
  - rewrite decide_False; [done|]. intros [?%elem_of_nil _]. done.
  - rewrite index_tokens_cons, IH, index_token_frequency.
    destruct (decide (t ∈ keys ∧ d = filename)) as [[Hin ->]|Hn].
    + rewrite decide_True; [done|]. split; [by right | done].
    + destruct (decide (t = k ∧ d = filename)) as [[-> ->]|Hn'].
      * rewrite decide_True; [done|]. split; [left | done].
      * rewrite decide_False; [done|].
        intros [[->|?]%elem_of_cons ->]; tauto.
Qed.

Lemma parse_document_frequency filename text st t d :
  frequency (parse_document filename (Text text) st).2 t d
  = if decide (t ∈ document_tokens (stopwords (self st)) text ∧ d = filename)
    then Some (occurrences t (document_tokens (stopwords (self st)) text))
    else frequency st t d.
Proof.
  destruct (parse_document_text filename text st) as [line ->].
  change (frequency (true, (print line (index_text filename text st)).2).2 t d)
    with (frequency (index_text filename text st) t d).
  unfold index_text. rewrite index_tokens_frequency, Counter_count.
  destruct (decide (t ∈ document_tokens (stopwords (self st)) text ∧ d = filename))
    as [[Hin ->]|Hn].
  - rewrite decide_True; [done|]. split; [by apply Counter_keys | done].
  - rewrite decide_False; [done|]. intros [Hk ->]. apply Hn.
    split; [|done]. by apply (proj1 (Counter_keys _ _)).
Qed.

Lemma parse_document_frequency_other filename content st t d :
  d ≠ filename →
  frequency (parse_document filename content st).2 t d = frequency st t d.
Proof.
  intros Hne. destruct content as [text|e].
  - rewrite parse_document_frequency. rewrite decide_False; [done | tauto].
  - by destruct (parse_document_raised filename e st) as [line ->].
Qed.

Lemma parse_all_frequency_other calls st t d :
  d ∉ calls.*1 → frequency (parse_all calls st) t d = frequency st t d.
Proof.
  revert st. induction calls as [|[filename content] calls IH]; intros st Hd.
  - done.
  - simpl in *. apply not_elem_of_cons in Hd as [Hne Hd].
    rewrite IH by done. by apply parse_document_frequency_other.
Qed.

Lemma parse_all_frequency calls st d text t :
  NoDup calls.*1 → (d, Text text) ∈ calls →
  frequency st t d = None →
  frequency (parse_all calls st) t d
  = if decide (t ∈ document_tokens (stopwords (self st)) text)
    then Some (occurrences t (document_tokens (stopwords (self st)) text))
    else None.
Proof.
  revert st. induction calls as [|[filename content] calls IH];
    intros st Hnd Hin Hnone.
  { by apply elem_of_nil in Hin. }
  simpl in *. apply NoDup_cons in Hnd as [Hfresh Hnd].
  apply elem_of_cons in Hin as [[= <- <-]|Hin].
  - rewrite parse_all_frequency_other by done.
    rewrite parse_document_frequency.
    destruct (decide (t ∈ document_tokens (stopwords (self st)) text)).
    + rewrite decide_True; done.
    + rewrite decide_False; [done | tauto].
  - assert (d ≠ filename) as Hne.
    { intros ->. apply Hfresh. apply list_elem_of_fmap. by exists (filename, Text text). }
    rewrite <- (parse_document_stopwords filename content st).
    apply IH; [done | done |].
    by rewrite parse_document_frequency_other.
Qed.

(** X8.  For distinct documents indexed by a new engine, the
    term-frequency table holds, for a document and a term of its token
    stream, the number of occurrences of the term in the stream, and no
    entry for a term the document does not have. *)
Theorem term_frequency_exact dir urls calls d text t :
  NoDup calls.*1 → (d, Text text) ∈ calls →
  frequency (parse_all calls (init dir urls)) t d
  = if decide (t ∈ document_tokens _load_stopwords text)
    then Some (occurrences t (document_tokens _load_stopwords text))
    else None.
Proof.
  intros Hnd Hin.
  apply (parse_all_frequency calls (init dir urls) d text t Hnd Hin).
  unfold frequency. simpl. by rewrite lookup_empty.
Qed.

(** X9.  Indexing a document touches only its own terms and its own
    column: the table entries of other documents, and the posting sets and
    table rows of terms the document does not have, stay as they were (so
    indexing a name again with a changed text leaves the postings of the
    terms it lost). *)
Theorem parse_document_touches_own_terms filename text st t d :
  wf st →
  (d ≠ filename →
     frequency (parse_document filename (Text text) st).2 t d = frequency st t d)
  ∧ (¬ t ∈ document_tokens (stopwords (self st)) text →
     frequency (parse_document filename (Text text) st).2 t d = frequency st t d
     ∧ posting (parse_document filename (Text text) st).2 t = posting st t).
Proof.
  intros Hwf. split.
  - apply parse_document_frequency_other.
  - intros Ht. split.
    + rewrite parse_document_frequency. rewrite decide_False; [done | tauto].
    + rewrite parse_document_posting by done. unfold containing. simpl.
      by rewrite decide_False.
Qed.

(** ** Posting sets only grow *)

Lemma index_token_grows n token filename st t S :
  posting st t = Some S →
  ∃ S', posting (index_token n token filename st).2 t = Some S' ∧ S ⊆ S'.
Proof.
  unfold posting.
  destruct (inverted_index (self st) !! t) as [l|] eqn:Hl; [|done]. simpl.
  intros HS.
  destruct (inverted_index (self st) !! token) as [l'|] eqn:Hl'.
  - destruct (index_token_present n token filename st l' Hl') as [-> ->].
    rewrite Hl. simpl. destruct (decide (l' = l)) as [->|Hne].
    + rewrite lookup_insert_eq. eexists. split; [done|].
      unfold deref. rewrite HS. simpl. apply union_subseteq_r.
    + rewrite lookup_insert_ne by done. eauto.
  - destruct (index_token_absent n token filename st Hl') as [-> ->].
    rewrite lookup_insert_ne by congruence. rewrite Hl. simpl.
    rewrite lookup_insert_ne; [eauto|].
    intros Heq. by rewrite <- Heq, fresh_heap in HS.
Qed.

Lemma index_tokens_grows tc keys filename st t S :
  posting st t = Some S →
  ∃ S', posting (index_tokens tc keys filename st).2 t = Some S' ∧ S ⊆ S'.
Proof.
  revert st S. induction keys as [|k keys IH]; intros st S HS; [eauto|].
  rewrite index_tokens_cons.
  destruct (index_token_grows (counts_getitem tc k) k filename st t S HS)
    as (S1 & HS1 & Hsub).
  destruct (IH _ _ HS1) as (S' & HS' & Hsub').
  exists S'. split; [done|]. by etrans.
Qed.

Lemma parse_document_grows filename content st t S :
  posting st t = Some S →
  ∃ S', posting (parse_document filename content st).2 t = Some S' ∧ S ⊆ S'.
Proof.
  intros HS. destruct content as [text|e].
  - destruct (parse_document_text filename text st) as [line ->].
    by apply (index_tokens_grows _ _ filename st).
  - destruct (parse_document_raised filename e st) as [line ->]. eauto.
Qed.

(** X10.  No call of [parse_document] takes a document out of a posting
    set or an entry out of the table, whatever the state it starts from. *)
Theorem parse_all_only_adds calls st t :
  (∀ S, posting st t = Some S →
        ∃ S', posting (parse_all calls st) t = Some S' ∧ S ⊆ S')
  ∧ (∀ d, is_Some (frequency st t d) →
          is_Some (frequency (parse_all calls st) t d)).
Proof.
  revert st. induction calls as [|[filename content] calls IH]; intros st.
  - split; eauto.
  - simpl. destruct (IH (parse_document filename content st).2) as [IHp IHf].
    split.
    + intros S HS.
      destruct (parse_document_grows filename content st t S HS) as (S1 & HS1 & Hsub).
      destruct (IHp S1 HS1) as (S' & HS' & Hsub').
      exists S'. split; [done|]. by etrans.
    + intros d Hd. apply IHf. destruct content as [text|e].
      * rewrite parse_document_frequency. by case_decide.
      * by destruct (parse_document_raised filename e st) as [line ->].
Qed.

(** ** [build_index] *)

Lemma parse_document_fields filename content st :
  webpages_dir (self (parse_document filename content st).2) = webpages_dir (self st)
  ∧ documents (self (parse_document filename content st).2) = documents (self st)
  ∧ document_urls (self (parse_document filename content st).2)
    = document_urls (self st)
  ∧ (parse_document filename content st).1
    = match content with Text _ => true | Raised _ => false end.
Proof.
  destruct content as [text|e].
  - destruct (parse_document_text filename text st) as [line ->]. simpl.
    unfold index_text.
    destruct (index_tokens_frame
      (Counter (document_tokens (stopwords (self st)) text))
      (Counter (document_tokens (stopwords (self st)) text)).*1 filename st)
      as (? & ? & ? & ? & ?).
    done.
  - by destruct (parse_document_raised filename e st) as [line ->].
Qed.

Lemma build_index_loop_fields listing st :
  webpages_dir (self (build_index_loop listing st).2) = webpages_dir (self st)
  ∧ documents (self (build_index_loop listing st).2)
    = (documents (self st) ++ indexed_names listing)%list
  ∧ document_urls (self (build_index_loop listing st).2)
    = document_urls (self st).
Proof.
  revert st. induction listing as [|[filename content] listing IH]; intros st.
  - simpl. by rewrite app_nil_r.
  - unfold indexed_names. simpl. munfold.
    destruct (endswith filename ".html" || endswith filename ".htm") eqn:Hhtml.
    + destruct (parse_document_fields filename content st) as (Hw & Hd & Hu & Hok).
      destruct (parse_document filename content st) as [ok st1]. simpl in *.
      subst ok. destruct content as [text|e]; simpl.
      * destruct (IH (set_documents (documents (self st1) ++ [filename]) st1))
          as (-> & -> & ->). simpl.
        rewrite Hd, <- app_assoc. done.
      * destruct (IH st1) as (-> & -> & ->). by rewrite Hw, Hd, Hu.
    + destruct (IH st) as (-> & -> & ->).
      by destruct content.
Qed.

Lemma build_index_fields listing st :
  webpages_dir (self (build_index listing st).2) = webpages_dir (self st)
  ∧ documents (self (build_index listing st).2) = indexed_names listing
  ∧ document_urls (self (build_index listing st).2) = document_urls (self st).
Proof.
  unfold build_index. munfold. simpl.
  pose proof (build_index_loop_fields listing
    (set_documents []
       (mkState (heap st) (self st)
          (stdout st ++ ["Building index from documents in '"
                         +:+ webpages_dir (self st) +:+ "'..."])))) as Hf.
  destruct (build_index_loop listing _) as [[] st1]. simpl in *. done.
Qed.

(** X11.  [build_index] records in [documents] the HTML files of the
    listing whose extraction succeeds, in the order of the listing; what
    the list held before is discarded, and a file that is not HTML or that
    fails to parse is left out. *)
Theorem build_index_documents listing st :
  documents (self (build_index listing st).2) = indexed_names listing.
Proof. apply build_index_fields. Qed.

(** X12.  The index [build_index] builds is the one the calls of
    [parse_document] on the HTML entries of the listing build, in order:
    same set objects, inverted index, term-frequency table and stopwords;
    the directory name and the URL mapping are not changed. *)
Theorem build_index_is_parse_all listing st :
  same_index (build_index listing st).2 (parse_all (html_entries listing) st)
  ∧ webpages_dir (self (build_index listing st).2) = webpages_dir (self st)
  ∧ document_urls (self (build_index listing st).2) = document_urls (self st).
Proof.
  split; [apply build_index_parse_all|].
  by destruct (build_index_fields listing st) as (? & _ & ?).
Qed.

Lemma same_index_sym st1 st2 : same_index st1 st2 → same_index st2 st1.
Proof. intros (? & ? & ? & ?). by split_and!. Qed.

Lemma same_index_trans st1 st2 st3 :
  same_index st1 st2 → same_index st2 st3 → same_index st1 st3.
Proof. intros (? & ? & ? & ?) (? & ? & ? & ?). split_and!; congruence. Qed.

Lemma parse_all_same calls st1 st2 :
  same_index st1 st2 → same_index (parse_all calls st1) (parse_all calls st2).
Proof.
  revert st1 st2. induction calls as [|[filename content] calls IH];
    intros st1 st2 Hs; [done|].
  simpl. apply IH. by apply parse_document_same.
Qed.

(** A call on a document whose terms are all indexed with their counts
    changes nothing but the output. *)
Lemma parse_document_settled filename content st :
  (∀ text t, content = Text text →
     t ∈ document_tokens (stopwords (self st)) text →
     indexed st t filename
       (occurrences t (document_tokens (stopwords (self st)) text))) →
  heap (parse_document filename content st).2 = heap st
  ∧ self (parse_document filename content st).2 = self st.
Proof.
  intros Hall. destruct content as [text|e].
  - destruct (parse_document_text filename text st) as [line ->].
    unfold index_text. rewrite index_tokens_id; [done|].
    intros k Hk. rewrite Counter_count. apply (Hall text); [done|].
    by apply (proj1 (Counter_keys _ _)).
  - by destruct (parse_document_raised filename e st) as [line ->].
Qed.

Lemma indexed_ext st1 st2 t d n :
  heap st1 = heap st2 → self st1 = self st2 →
  indexed st1 t d n → indexed st2 t d n.
Proof.
  intros Hh Hs. unfold indexed, posting, frequency. by rewrite Hh, Hs.
Qed.

Lemma parse_all_settled calls st :
  (∀ d text t, (d, Text text) ∈ calls →
     t ∈ document_tokens (stopwords (self st)) text →
     indexed st t d (occurrences t (document_tokens (stopwords (self st)) text))) →
  heap (parse_all calls st) = heap st ∧ self (parse_all calls st) = self st.
Proof.
  revert st. induction calls as [|[filename content] calls IH]; intros st Hall.
  - done.
  - simpl.
    destruct (parse_document_settled filename content st) as [Hh Hs].
    { intros text t -> Ht. apply Hall; [left | done]. }
    destruct (IH (parse_document filename content st).2) as [-> ->]; [|done].
    intros d text t Hin Ht. rewrite Hs in Ht |- *.
    apply (indexed_ext st); [done | done |]. apply Hall; [by right | done].
Qed.

(** Running the same calls, on distinct documents, a second time changes
    neither the engine nor a set object. *)
Lemma parse_all_twice calls st :
  NoDup calls.*1 →
  heap (parse_all calls (parse_all calls st)) = heap (parse_all calls st)
  ∧ self (parse_all calls (parse_all calls st)) = self (parse_all calls st).
Proof.
  intros Hnd. apply parse_all_settled. intros d text t Hin Ht.
  rewrite parse_all_stopwords in Ht |- *.
  by apply parse_all_indexed.
Qed.

(** X13.  Building the index again from the same listing (distinct file
    names) changes nothing: the engine and every set object are as the
    first build left them. *)
Theorem build_index_twice listing st :
  NoDup (html_entries listing).*1 →
  self (build_index listing (build_index listing st).2).2
    = self (build_index listing st).2
  ∧ heap (build_index listing (build_index listing st).2).2
    = heap (build_index listing st).2.
Proof.
  intros Hnd.
  pose proof (build_index_parse_all listing st) as H1.
  pose proof (build_index_parse_all listing (build_index listing st).2) as H2.
  pose proof (parse_all_same (html_entries listing) _ _ H1) as H3.
  destruct (parse_all_twice (html_entries listing) st Hnd) as [Hh Hs].
  assert (same_index (build_index listing (build_index listing st).2).2
                     (build_index listing st).2) as (Ha & Hb & Hc & Hd).
  { eapply same_index_trans; [exact H2|].
    eapply same_index_trans; [exact H3|].
    eapply same_index_trans; [|apply same_index_sym, H1].
    unfold same_index. by rewrite Hh, Hs. }
  destruct (build_index_fields listing st) as (Hw1 & Hd1 & Hu1).
  destruct (build_index_fields listing (build_index listing st).2)
    as (Hw2 & Hd2 & Hu2).
  split; [|done]. apply engine_eq; congruence.
Qed.

(** ** [search] against its functional reading *)

Lemma first_absent_Some P terms u :
  first_absent P terms = Some u →
  ∃ pre rest, terms = (pre ++ u :: rest)%list
              ∧ (∀ v, v ∈ pre → is_Some (P v)) ∧ P u = None.
Proof.
  induction terms as [|t terms IH]; [done|]. simpl.
  destruct (P t) as [S|] eqn:Ht.
  - intros (pre & rest & -> & Hpre & Hu)%IH.
    exists (t :: pre), rest. split_and!; [done | | done].
    intros v [->|Hv]%elem_of_cons; [by rewrite Ht | by apply Hpre].
  - intros [= <-]. exists [], terms. split_and!; [done | | done].
    by intros v ?%elem_of_nil.
Qed.

Lemma first_absent_None P terms :
  first_absent P terms = None → ∀ v, v ∈ terms → is_Some (P v).
Proof.
  induction terms as [|t terms IH]; simpl.
  - by intros _ v ?%elem_of_nil.
  - destruct (P t) as [S|] eqn:Ht; [|done].
    intros Hn v [->|Hv]%elem_of_cons; [by rewrite Ht | by apply IH].
Qed.

Lemma wf_posting_None st t :
  wf st → posting st t = None → inverted_index (self st) !! t = None.
Proof.
  intros [Halloc _]. unfold posting.
  destruct (inverted_index (self st) !! t) as [l|] eqn:Hl; [|done]. simpl.
  intros Hn. destruct (Halloc t l Hl) as [S HS]. congruence.
Qed.

Lemma posting_is_Some_index st t :
  is_Some (posting st t) → is_Some (inverted_index (self st) !! t).
Proof.
  unfold posting. destruct (inverted_index (self st) !! t); [eauto|].
  by intros [? ?].
Qed.

(** From a state where every index entry has its set object, [search]
    returns what [search_spec] asks for and prints its line. *)
Lemma search_spec_sound set_iter q st :
  wf st →
  (search set_iter q st).1
    = (search_spec set_iter (stopwords (self st)) (posting st) (tf_count st) q).1
  ∧ stdout (search set_iter q st).2
    = (stdout st
       ++ (search_spec set_iter (stopwords (self st)) (posting st) (tf_count st) q).2)%list.
Proof.
  intros Hwf. unfold search_spec.
  destruct (all_chars is_space q) eqn:Hb.
  { apply strip_empty_iff in Hb. by rewrite search_blank. }
  assert (strip q ≠ "") as Hq.
  { intros Hs%strip_empty_iff. congruence. }
  destruct (query_terms (stopwords (self st)) q) as [|t rest] eqn:Hterms.
  { by rewrite search_all_stopwords. }
  rewrite search_with_terms by (by rewrite Hterms). rewrite Hterms.
  destruct (first_absent (posting st) (t :: rest)) as [u|] eqn:Hfa.
  - apply first_absent_Some in Hfa as (pre & rest' & Heq & Hpre & Hu).
    destruct (match_terms_absent pre u None st) as (st' & _ & Hout & Hrun).
    { intros v Hv. by apply posting_is_Some_index, Hpre. }
    { by apply wf_posting_None. }
    unfold search_terms. rewrite Heq, Hrun. done.
  - pose proof (first_absent_None _ _ Hfa) as Hall.
    rewrite search_terms_present by done. cbv zeta.
    change (inter_postings st rest (default ∅ (posting st t)))
      with (foldl (λ acc u, acc ∩ default ∅ (posting st u))
              (default ∅ (posting st t)) rest).
    destruct (decide (foldl (λ acc u, acc ∩ default ∅ (posting st u))
                        (default ∅ (posting st t)) rest = ∅)).
    + done.
    + simpl. by rewrite app_nil_r.
Qed.

Lemma first_absent_ext P1 P2 terms :
  (∀ t, P1 t = P2 t) → first_absent P1 terms = first_absent P2 terms.
Proof.
  intros HP. induction terms as [|t terms IH]; [done|].
  simpl. by rewrite HP, IH.
Qed.

Lemma search_spec_ext set_iter sw P1 P2 F1 F2 q :
  (∀ t, P1 t = P2 t) → (∀ t d, F1 t d = F2 t d) →
  search_spec set_iter sw P1 F1 q = search_spec set_iter sw P2 F2 q.
Proof.
  intros HP HF. unfold search_spec.
  destruct (all_chars is_space q); [done|].
  destruct (query_terms sw q) as [|t rest]; [done|].
  rewrite (first_absent_ext P1 P2) by done.
  destruct (first_absent P2 (t :: rest)); [done|].
  assert (∀ acc, foldl (λ acc u, acc ∩ default ∅ (P1 u)) acc rest
                 = foldl (λ acc u, acc ∩ default ∅ (P2 u)) acc rest) as Hfold.
  { induction rest as [|u rest IH]; intros acc; [done|].
    simpl. by rewrite HP, IH. }
  rewrite Hfold, HP.
  destruct (decide _); [done|]. f_equal. f_equal.
  apply list_fmap_ext. intros _ d _. f_equal. f_equal.
  apply list_fmap_ext. intros _ u _. apply HF.
Qed.

Lemma search_wf set_iter q st : wf st → wf (search set_iter q st).2.
Proof.
  intros [Halloc Hinj]. destruct (search_keeps set_iter q st) as [Hself Hheap].
  split; rewrite Hself; [|done].
  intros t l Hl. destruct (Halloc t l Hl) as [S HS].
  exists S. by eapply lookup_weaken.
Qed.

Lemma search_posting set_iter q st t :
  wf st → posting (search set_iter q st).2 t = posting st t.
Proof.
  intros [Halloc Hinj]. destruct (search_keeps set_iter q st) as [Hself Hheap].
  unfold posting. rewrite Hself.
  destruct (inverted_index (self st) !! t) as [l|] eqn:Hl; [|done]. simpl.
  destruct (Halloc t l Hl) as [S HS]. rewrite HS. by eapply lookup_weaken.
Qed.

Lemma search_tf_count set_iter q st t d :
  tf_count (search set_iter q st).2 t d = tf_count st t d.
Proof.
  destruct (search_keeps set_iter q st) as [Hself _].
  unfold tf_count, frequency. by rewrite Hself.
Qed.


(** Two orders that list the same documents give the same pairs, up to
    their order before the sort, and the same line. *)
Lemma search_spec_perm iter1 iter2 sw P F q :
  (∀ X, iter1 X ≡ₚ iter2 X) →
  (search_spec iter1 sw P F q).1 ≡ₚ (search_spec iter2 sw P F q).1
  ∧ (search_spec iter1 sw P F q).2 = (search_spec iter2 sw P F q).2.
Proof.
  intros Hperm. unfold search_spec.
  destruct (all_chars is_space q); [done|].
  destruct (query_terms sw q) as [|t rest]; [done|].
  destruct (first_absent P (t :: rest)); [done|].
  cbv zeta. destruct (decide _); [done|]. cbn [fst snd]. split; [|done].
  rewrite !sort_desc_perm. by apply fmap_Permutation.
Qed.

(** X15.  The answer to a query depends on the stopwords, the posting
    sets and the table only: two engines that agree on these, each finding
    its candidate set in an order of its own, return the same pairs up to
    their order in the list and print the same line, whatever their
    documents list, URL mapping, earlier output or unused set objects. *)
Theorem search_determined_by_index iter1 iter2 q st1 st2 :
  (∀ X, iter1 X ≡ₚ elements X) → (∀ X, iter2 X ≡ₚ elements X) →
  wf st1 → wf st2 →
  stopwords (self st1) = stopwords (self st2) →
  (∀ t, posting st1 t = posting st2 t) →
  (∀ t d, frequency st1 t d = frequency st2 t d) →
  (search iter1 q st1).1 ≡ₚ (search iter2 q st2).1
  ∧ ∃ out, stdout (search iter1 q st1).2 = (stdout st1 ++ out)%list
           ∧ stdout (search iter2 q st2).2 = (stdout st2 ++ out)%list.
Proof.
  intros Hi1 Hi2 Hwf1 Hwf2 Hsw Hp Hf.
  destruct (search_spec_sound iter1 q st1 Hwf1) as [-> ->].
  destruct (search_spec_sound iter2 q st2 Hwf2) as [-> ->].
  rewrite Hsw.
  rewrite (search_spec_ext iter1 _ (posting st1) (posting st2)
             (tf_count st1) (tf_count st2)); [| done |].
  - destruct (search_spec_perm iter1 iter2 (stopwords (self st2)) (posting st2)
                (tf_count st2) q) as [Hr Ho].
    { intros X. by rewrite Hi1, Hi2. }
    split; [done|]. rewrite Ho. eauto.
  - intros t d. unfold tf_count. by rewrite Hf.
Qed.

(** X16.  Queries are repeatable: a query asked after another one gets
    the pairs and prints the line it gets when asked first. *)
Theorem search_after_search set_iter q1 q2 st :
  wf st →
  (search set_iter q2 (search set_iter q1 st).2).1 = (search set_iter q2 st).1
  ∧ ∃ out, stdout (search set_iter q2 (search set_iter q1 st).2).2
           = (stdout (search set_iter q1 st).2 ++ out)%list
           ∧ stdout (search set_iter q2 st).2 = (stdout st ++ out)%list.
Proof.
  intros Hwf.
  destruct (search_spec_sound set_iter q2 st Hwf) as [-> ->].
  destruct (search_spec_sound set_iter q2 _ (search_wf set_iter q1 st Hwf))
    as [-> ->].
  destruct (search_keeps set_iter q1 st) as [-> _].
  rewrite (search_spec_ext set_iter _ (posting (search set_iter q1 st).2)
             (posting st) (tf_count (search set_iter q1 st).2) (tf_count st)).
  - eauto.
  - intros t. by apply search_posting.
  - intros t d. apply search_tf_count.
Qed.

Section candidates.
Variable set_iter : gset string → list string.
Hypothesis set_iter_perm : ∀ X, set_iter X ≡ₚ elements X.

(** X17.  When every query term has a posting set, the documents
    returned are exactly the documents that are in the posting set of
    every term, each returned once. *)
Theorem search_returns_candidates q st :
  query_terms (stopwords (self st)) q ≠ [] →
  (∀ u, u ∈ query_terms (stopwords (self st)) q → is_Some (posting st u)) →
  NoDup (search set_iter q st).1.*1
  ∧ ∀ doc, doc ∈ (search set_iter q st).1.*1
           ↔ ∀ u, u ∈ query_terms (stopwords (self st)) q →
                  ∃ S, posting st u = Some S ∧ doc ∈ S.
Proof using set_iter_perm.
  intros Hne Hall. rewrite search_with_terms by done.
  destruct (query_terms (stopwords (self st)) q) as [|t rest]; [done|].
  rewrite search_terms_present by done. cbv zeta.
  set (D := inter_postings st rest (default ∅ (posting st t))).
  assert (∀ doc, doc ∈ D ↔ ∀ u, u ∈ t :: rest →
                              ∃ S, posting st u = Some S ∧ doc ∈ S) as HD.
  { intros doc. unfold D. rewrite elem_of_inter_postings. split.
    - intros [Ht Hrest] u Hu.
      assert (doc ∈ default ∅ (posting st u)) as Hd.
      { apply elem_of_cons in Hu as [->|Hu]; [done | by apply Hrest]. }
      destruct (Hall u Hu) as [S HS]. rewrite HS in Hd. eauto.
    - intros Hdoc. split.
      + destruct (Hdoc t) as (S & -> & ?); [left | done].
      + intros u Hu. destruct (Hdoc u) as (S & -> & ?); [by right | done]. }
  destruct (decide (D = ∅)) as [He|He]; simpl.
  - split; [constructor|]. intros doc. rewrite <- HD, He.
    split; [by intros ?%elem_of_nil | by intros ?%not_elem_of_empty].
  - assert ((sort_desc ((λ d, (d, score st (t :: rest) d)) <$> set_iter D)).*1
            ≡ₚ elements D) as Hperm.
    { rewrite sort_desc_perm, <- list_fmap_compose.
      change (fst ∘ (λ d, (d, score st (t :: rest) d))) with (@id string).
      by rewrite list_fmap_id. }
    split.
    + rewrite Hperm. apply NoDup_elements.
    + intros doc. rewrite Hperm, elem_of_elements. apply HD.
Qed.

(** X18.  Scores add up: in a corpus of distinct documents indexed by a
    new engine, a document that has the terms [t1] and [t2] is returned by
    the query made of the two terms with, as its score, the number of
    occurrences of [t1] plus the number of occurrences of [t2]. *)
Theorem two_term_score dir urls calls d text t1 t2 :
  NoDup calls.*1 → (d, Text text) ∈ calls →
  t1 ∈ document_tokens _load_stopwords text →
  t2 ∈ document_tokens _load_stopwords text →
  (d, occurrences t1 (document_tokens _load_stopwords text)
      + occurrences t2 (document_tokens _load_stopwords text))
    ∈ (search set_iter (t1 +:+ String " " t2) (parse_all calls (init dir urls))).1.
Proof using set_iter_perm.
  intros Hnd Hin H1 H2.
  pose proof (parse_all_indexed calls (init dir urls) d text t1 Hnd Hin H1)
    as [Hp1 Hf1].
  pose proof (parse_all_indexed calls (init dir urls) d text t2 Hnd Hin H2)
    as [Hp2 Hf2].
  pose proof (parse_all_stopwords calls (init dir urls)) as Hsw.
  assert (query_terms _load_stopwords (t1 +:+ String " " t2) = [t1; t2]) as Hq.
  { rewrite query_terms_separator by done.
    by rewrite (query_terms_token _ _ _ H1), (query_terms_token _ _ _ H2). }
  pose proof (search_hit set_iter set_iter_perm (t1 +:+ String " " t2)
                (parse_all calls (init dir urls)) d) as Hhit.
  rewrite Hsw in Hhit. simpl in Hhit. rewrite Hq in Hhit.
  unfold score, tf_count in Hhit. simpl in Hhit, Hf1, Hf2.
  rewrite Hf1, Hf2 in Hhit. simpl in Hhit. rewrite Nat.add_0_r in Hhit.
  apply Hhit; [done|].
  intros u [->|[->|Hu%elem_of_nil]%elem_of_cons]%elem_of_cons; done.
Qed.

End candidates.

(** ** [_load_url_mapping] and [__init__] *)

Lemma split_space_none s :
  all_chars (λ c, negb (Ascii.eqb c " ")) s = true → split_space s = [s].
Proof.
  induction s as [|c s IH]; simpl; [done|].
  intros [Hc Hs]%andb_true_iff. apply negb_true_iff in Hc. rewrite Hc.
  by rewrite IH.
Qed.











(** X20.  A line of the URL file is skipped, with no effect at all, when
    it is blank, when it is a comment (it starts with [//] once stripped)
    or when, once stripped, it has no space (a name alone, or a name and a
    URL separated by a tab). *)
Theorem load_url_line_skips line st :
  strip line = ""
  ∨ startswith (strip line) "//" = true
  ∨ all_chars (λ c, negb (Ascii.eqb c " ")) (strip line) = true →
  load_url_line line st = (tt, st).
Proof.
  intros Hskip. unfold load_url_line.
  destruct (String.eqb (strip line) "") eqn:He; [done|].
  destruct (startswith (strip line) "//") eqn:Hs; [done|]. simpl.
  destruct Hskip as [He'|[?|Hns]]; [|done|].
  - rewrite He' in He. done.
  - by rewrite split_space_none.
Qed.

Lemma load_url_line_urls line st :
  ∃ urls, load_url_line line st = (tt, set_document_urls urls st).
Proof.
  assert (st = set_document_urls (document_urls (self st)) st) as Hid.
  { by destruct st as [h [] out]. }
  unfold load_url_line.
  destruct (negb (String.eqb (strip line) "") && negb (startswith (strip line) "//")).
  - destruct (split_space (strip line)) as [|a [|b [|c l]]];
      try (exists (document_urls (self st)); unfold mret, M_ret; congruence).
    eexists. reflexivity.
  - exists (document_urls (self st)). unfold mret, M_ret. congruence.
Qed.

Lemma load_url_lines_urls lines st :
  ∃ urls, load_url_lines lines st = (tt, set_document_urls urls st).
Proof.
  revert st. induction lines as [|line lines IH]; intros st.
  - exists (document_urls (self st)). simpl. unfold mret, M_ret.
    by destruct st as [h [] out].
  - simpl. munfold. destruct (load_url_line_urls line st) as [urls1 ->].
    destruct (IH (set_document_urls urls1 st)) as [urls ->].
    by exists urls.
Qed.

(** X21.  Whatever happens to the URL file, [__init__] yields a new
    engine: no set object, an empty index and table, the fixed stopwords,
    no document, some URL mapping, and one line on the console; the
    mapping is empty when the file is missing or cannot be opened. *)
Theorem init_with_url_file dir file :
  ∃ urls line,
    __init__ dir file = (print line (init dir urls)).2
    ∧ (file = Missing ∨ (∃ e, file = Opened [] (Some e)) → urls = ∅).
Proof.
  unfold __init__, _load_url_mapping. destruct file as [|lines failure].
  - exists ∅. eexists. split; [reflexivity | done].
  - munfold.
    destruct (load_url_lines_urls lines
      (mkState ∅ (mkEngine dir ∅ ∅ _load_stopwords [] ∅) [])) as [urls Hl].
    rewrite Hl. exists urls.
    destruct failure as [e|]; (eexists; split; [reflexivity|]).
    + intros [?|[e' [= -> _]]]; [done|]. simpl in Hl.
      unfold mret, M_ret in Hl. by injection Hl as <-.
    + intros [?|[e' ?]]; done.
Qed.

(** ** [display_results] *)

Lemma display_rows_spec i results st :
  display_rows i results st
  = (tt, mkState (heap st) (self st)
           (stdout st ++ result_rows (document_urls (self st)) i results)).
Proof.
  revert i st. induction results as [|[doc score] results IH]; intros i st.
  - simpl. unfold mret, M_ret. rewrite app_nil_r. by destruct st.
  - simpl. munfold. rewrite IH. simpl. by rewrite <- !app_assoc.
Qed.

Lemma display_results_spec results st :
  display_results results st
  = (tt, mkState (heap st) (self st)
           (stdout st ++ display_lines (document_urls (self st)) results)).
Proof.
  destruct results as [|r results]; [done|].
  unfold display_results, display_lines. munfold.
  rewrite display_rows_spec. simpl. by rewrite <- !app_assoc.
Qed.

Lemma result_rows_length urls i results :
  List.length (result_rows urls i results) = 2 * List.length results.
Proof.
  revert i. induction results as [|[doc score] results IH]; intros i; [done|].
  simpl. rewrite IH. lia.
Qed.

Lemma result_rows_lookup urls k results i doc score :
  results !! i = Some (doc, score) →
  result_rows urls k results !! (2 * i)
    = Some (pretty (k + i) +:+ ". " +:+ doc +:+ " (Relevance score: "
            +:+ pretty score +:+ ")")
  ∧ result_rows urls k results !! (2 * i + 1)
    = Some ("   URL: " +:+ default url_not_available (urls !! doc)).
Proof.
  revert k i. induction results as [|[doc' score'] results IH]; intros k i; [done|].
  destruct i as [|i].
  - intros [= -> ->]. simpl. by rewrite Nat.add_0_r.
  - intros Hi. destruct (IH (S k) i Hi) as [H1 H2].
    replace (2 * S i) with (S (S (2 * i))) by lia.
    replace (k + S i) with (S k + i) by lia. simpl. split; [done|].
    replace (i + (i + 0) + 1) with (2 * i + 1) by lia. done.
Qed.

(** X22.  [display_results] only prints: the engine and the set objects
    are untouched, and it adds one line for an empty result list, and two
    lines per result plus three (the heading and the two rules)
    otherwise. *)
Theorem display_results_prints results st :
  ∃ out,
    (display_results results st).2
    = mkState (heap st) (self st) (stdout st ++ out)
    ∧ List.length out
      = match results with [] => 1 | _ => 2 * List.length results + 3 end.
Proof.
  rewrite display_results_spec. eexists. split; [reflexivity|].
  destruct results as [|r results]; [done|].
  unfold display_lines. cbv beta iota.
  rewrite !length_app, result_rows_length. simpl. lia.
Qed.

(** X23.  The result at position [i] of the list (from 0) is displayed
    on two lines, after the heading and the rule: its rank [i + 1], name
    and score, then the URL bound to its name in the mapping, or the
    fallback text when the name has none. *)
Theorem display_results_row results st i doc score :
  results !! i = Some (doc, score) →
  stdout (display_results results st).2 !! (List.length (stdout st) + 2 + 2 * i)
    = Some (pretty (S i) +:+ ". " +:+ doc +:+ " (Relevance score: "
            +:+ pretty score +:+ ")")
  ∧ stdout (display_results results st).2
      !! (List.length (stdout st) + 2 + 2 * i + 1)
    = Some ("   URL: "
            +:+ default url_not_available (document_urls (self st) !! doc)).
Proof.
  intros Hi. rewrite display_results_spec. simpl.
  destruct results as [|r results]; [done|].
  unfold display_lines.
  destruct (result_rows_lookup (document_urls (self st)) 1 (r :: results)
              i doc score Hi) as [H1 H2].
  assert (∀ j x, result_rows (document_urls (self st)) 1 (r :: results) !! j = Some x →
    (stdout st ++ [newline +:+ "Found " +:+ pretty (List.length (r :: results))
                   +:+ " matching documents:"; repeat_string "-" 50]
       ++ result_rows (document_urls (self st)) 1 (r :: results)
       ++ [repeat_string "-" 50])%list !! (List.length (stdout st) + 2 + j)
    = Some x) as Hlook.
  { intros j x Hj. rewrite <- Nat.add_assoc.
    rewrite lookup_app_r by lia.
    replace (List.length (stdout st) + (2 + j) - List.length (stdout st))
      with (S (S j)) by lia.
    simpl. by apply lookup_app_l_Some. }
  split.
  - by apply Hlook.
  - rewrite <- Nat.add_assoc. by apply Hlook.
Qed.

(** ** A query answered and displayed *)

Lemma wf_ext st1 st2 :
  heap st1 = heap st2 → inverted_index (self st1) = inverted_index (self st2) →
  wf st1 → wf st2.
Proof. intros Hh Hi. unfold wf. by rewrite Hh, Hi. Qed.

Lemma answer_lines_ext set_iter st1 st2 q :
  self st1 = self st2 → (∀ t, posting st1 t = posting st2 t) →
  answer_lines set_iter st1 q = answer_lines set_iter st2 q.
Proof.
  intros Hs Hp. unfold answer_lines. rewrite Hs.
  rewrite (search_spec_ext set_iter _ (posting st1) (posting st2)
             (tf_count st1) (tf_count st2)); [done | done |].
  intros t d. unfold tf_count, frequency. by rewrite Hs.
Qed.

(** One query of a session, from a state where every index entry has its
    set object: the lines added are [answer_lines], and the state is as
    good as before for the next query. *)
Lemma answered set_iter q st :
  wf st →
  ∃ st', display_results (search set_iter q st).1 (search set_iter q st).2
         = (tt, st')
    ∧ stdout st' = (stdout st ++ answer_lines set_iter st q)%list
    ∧ self st' = self st ∧ heap st ⊆ heap st' ∧ wf st'
    ∧ ∀ t, posting st' t = posting st t.
Proof.
  intros Hwf. rewrite display_results_spec. eexists. split; [reflexivity|].
  destruct (search_spec_sound set_iter q st Hwf) as [Hr Ho].
  destruct (search_keeps set_iter q st) as [Hself Hheap].
  simpl. split_and!.
  - rewrite Hself, Hr, Ho. unfold answer_lines. by rewrite <- app_assoc.
  - done.
  - done.
  - apply (wf_ext (search set_iter q st).2); [done | done |].
    by apply search_wf.
  - intros t. rewrite <- (search_posting set_iter q st t Hwf). done.
Qed.

Lemma answered_any set_iter q st :
  ∃ st', display_results (search set_iter q st).1 (search set_iter q st).2
         = (tt, st')
    ∧ self st' = self st ∧ heap st ⊆ heap st'.
Proof.
  rewrite display_results_spec. eexists. split; [reflexivity|].
  by destruct (search_keeps set_iter q st) as [Hself Hheap].
Qed.

(** ** [run_interactive] *)

Lemma interactive_loop_cons set_iters k q inputs st :
  lower q ≠ "exit" →
  interactive_loop set_iters k (q :: inputs) st
  = interactive_loop set_iters (S k) inputs
      (display_results (search (set_iters k) q (print prompt st).2).1
         (search (set_iters k) q (print prompt st).2).2).2.
Proof.
  intros Hq. simpl. munfold.
  destruct (String.eqb (lower q) "exit") eqn:He.
  { by apply String.eqb_eq in He. }
  change (mkState (heap st) (self st) (stdout st ++ [prompt]))
    with (print prompt st).2.
  destruct (search (set_iters k) q (print prompt st).2) as [results st1]. simpl.
  by destruct (display_results results st1) as [[] st2].
Qed.

Lemma interactive_loop_exit set_iters k qs e rest st :
  Forall (λ q, lower q ≠ "exit") qs → lower e = "exit" →
  ∃ st', interactive_loop set_iters k (qs ++ e :: rest) st = ((Finished, rest), st')
    ∧ self st' = self st ∧ heap st ⊆ heap st'
    ∧ last (stdout st') = Some msg_goodbye.
Proof.
  intros Hqs He. revert k st. induction Hqs as [|q qs Hq Hqs IH]; intros k st.
  - simpl. munfold. rewrite He. simpl. eexists. split; [reflexivity|].
    split_and!; [done | done |]. simpl. by rewrite last_snoc.
  - rewrite <- app_comm_cons, interactive_loop_cons by done.
    destruct (answered_any (set_iters k) q (print prompt st).2)
      as (st1 & -> & Hs & Hh).
    cbn [snd].
    destruct (IH (S k) st1) as (st' & -> & Hs' & Hh' & Hl).
    exists st'. split_and!; [done | | | done].
    + by rewrite Hs', Hs.
    + etrans; [|exact Hh']. exact Hh.
Qed.

Lemma interactive_loop_eof set_iters k inputs st :
  Forall (λ q, lower q ≠ "exit") inputs →
  ∃ st', interactive_loop set_iters k inputs st = ((EOFError, []), st')
    ∧ self st' = self st ∧ heap st ⊆ heap st'
    ∧ last (stdout st') = Some prompt.
Proof.
  intros Hqs. revert k st. induction Hqs as [|q qs Hq Hqs IH]; intros k st.
  - simpl. munfold. eexists. split; [reflexivity|].
    split_and!; [done | done |]. simpl. by rewrite last_snoc.
  - rewrite interactive_loop_cons by done.
    destruct (answered_any (set_iters k) q (print prompt st).2)
      as (st1 & -> & Hs & Hh).
    cbn [snd].
    destruct (IH (S k) st1) as (st' & -> & Hs' & Hh' & Hl).
    exists st'. split_and!; [done | | | done].
    + by rewrite Hs', Hs.
    + etrans; [|exact Hh']. exact Hh.
Qed.


Lemma run_interactive_unfold set_iters listing inputs st :
  run_interactive set_iters listing inputs st
  = interactive_loop set_iters 0 inputs
      (print "Type 'exit' to quit"
         (print msg_banner (build_index listing st).2).2).2.
Proof.
  unfold run_interactive. munfold.
  by destruct (build_index listing st) as [[] st1].
Qed.

Lemma build_index_wf listing st : wf st → wf (build_index listing st).2.
Proof.
  intros Hwf. destruct (build_index_parse_all listing st) as (Hh & Hi & _).
  apply (wf_ext (parse_all (html_entries listing) st)); [done | done |].
  by apply parse_all_wf.
Qed.

Lemma init_file_wf dir file : wf (__init__ dir file).
Proof.
  unfold __init__, _load_url_mapping. destruct file as [|lines failure].
  - apply (init_wf dir ∅).
  - munfold.
    destruct (load_url_lines_urls lines
      (mkState ∅ (mkEngine dir ∅ ∅ _load_stopwords [] ∅) [])) as [urls ->].
    destruct failure; apply (init_wf dir urls).
Qed.

(** X24.  An interactive session ends at the first line typed that is
    [exit] in any letter case: the run finishes normally, the lines typed
    after it are not read, the last line printed is the farewell, and the
    engine is the one [build_index] built (no query changes it), whatever
    the order in which each call finds its candidate set. *)
Theorem run_interactive_exits set_iters listing qs e rest st :
  Forall (λ q, lower q ≠ "exit") qs → lower e = "exit" →
  (run_interactive set_iters listing (qs ++ e :: rest) st).1 = (Finished, rest)
  ∧ self (run_interactive set_iters listing (qs ++ e :: rest) st).2
    = self (build_index listing st).2
  ∧ last (stdout (run_interactive set_iters listing (qs ++ e :: rest) st).2)
    = Some msg_goodbye.
Proof.
  intros Hqs He. rewrite run_interactive_unfold.
  destruct (interactive_loop_exit set_iters 0 qs e rest
    (print "Type 'exit' to quit"
       (print msg_banner (build_index listing st).2).2).2
    Hqs He) as (st' & -> & Hs & _ & Hl).
  done.
Qed.

(** X25.  When the input ends before any line typed is [exit], the
    session ends with the [EOFError] of [input], raised after a last
    prompt; the queries typed before were answered and the engine is the
    one [build_index] built. *)
Theorem run_interactive_end_of_input set_iters listing inputs st :
  Forall (λ q, lower q ≠ "exit") inputs →
  (run_interactive set_iters listing inputs st).1 = (EOFError, [])
  ∧ self (run_interactive set_iters listing inputs st).2
    = self (build_index listing st).2
  ∧ last (stdout (run_interactive set_iters listing inputs st).2) = Some prompt.
Proof.
  intros Hqs. rewrite run_interactive_unfold.
  destruct (interactive_loop_eof set_iters 0 inputs
    (print "Type 'exit' to quit"
       (print msg_banner (build_index listing st).2).2).2
    Hqs) as (st' & -> & Hs & _ & Hl).
  done.
Qed.


(** ** [main] *)

Lemma test_loop_cons set_iters k q queries st :
  test_loop set_iters k (q :: queries) st
  = test_loop set_iters (S k) queries
      (print (newline +:+ repeat_string "=" 60 +:+ newline)
         (display_results
            (search (set_iters k) q (print ("Query: '" +:+ q +:+ "'") st).2).1
            (search (set_iters k) q (print ("Query: '" +:+ q +:+ "'") st).2).2).2).2.
Proof.
  simpl. munfold.
  change (mkState (heap st) (self st) (stdout st ++ ["Query: '" +:+ q +:+ "'"]))
    with (print ("Query: '" +:+ q +:+ "'") st).2.
  destruct (search (set_iters k) q (print ("Query: '" +:+ q +:+ "'") st).2)
    as [results st1]. simpl.
  by destruct (display_results results st1) as [[] st2].
Qed.

Lemma test_loop_transcript set_iters k queries st :
  wf st →
  stdout (test_loop set_iters k queries st).2
  = (stdout st
     ++ List.concat
          (imap (λ i q, ("Query: '" +:+ q +:+ "'")
                        :: answer_lines (set_iters (k + i)%nat) st q
                        ++ [newline +:+ repeat_string "=" 60 +:+ newline])
             queries))%list.
Proof.
  revert k st. induction queries as [|q queries IH]; intros k st Hwf.
  - simpl. by rewrite app_nil_r.
  - rewrite test_loop_cons.
    destruct (answered (set_iters k) q (print ("Query: '" +:+ q +:+ "'") st).2 Hwf)
      as (st1 & -> & Ho & Hs & Hh & Hwf1 & Hp).
    cbn [snd].
    assert (wf (print (newline +:+ repeat_string "=" 60 +:+ newline) st1).2)
      as Hwf2 by exact Hwf1.
    rewrite IH by done.
    change (stdout (print (newline +:+ repeat_string "=" 60 +:+ newline) st1).2)
      with (stdout st1 ++ [newline +:+ repeat_string "=" 60 +:+ newline])%list.
    rewrite Ho.
    rewrite (answer_lines_ext (set_iters k)
               (print ("Query: '" +:+ q +:+ "'") st).2 st q) by done.
    rewrite (imap_ext
      (λ i q', ("Query: '" +:+ q' +:+ "'")
               :: answer_lines (set_iters (S k + i)%nat)
                    (print (newline +:+ repeat_string "=" 60 +:+ newline) st1).2 q'
               ++ [newline +:+ repeat_string "=" 60 +:+ newline])
      ((λ i q', ("Query: '" +:+ q' +:+ "'")
                :: answer_lines (set_iters (k + i)%nat) st q'
                ++ [newline +:+ repeat_string "=" 60 +:+ newline]) ∘ S)
      queries).
    + change (stdout (print ("Query: '" +:+ q +:+ "'") st).2)
        with (stdout st ++ ["Query: '" +:+ q +:+ "'"])%list.
      rewrite imap_cons. cbn [List.concat]. rewrite Nat.add_0_r.
      rewrite <- !app_assoc. f_equal.
      rewrite (app_assoc (answer_lines (set_iters k) st q)). reflexivity.
    + intros i q' _. unfold compose. rewrite Nat.add_succ_r.
      change (S k + i)%nat with (S (k + i)). f_equal. f_equal.
      apply answer_lines_ext; [exact Hs | exact Hp].
Qed.

(** X27.  In test mode ([--test] as the first argument, [output.txt]
    writable) the program builds the index and writes the transcript to
    the file, not to the console: the console gets the lines of the build
    and the closing line only, the file gets one block per test query (the
    query, the lines of its answer for the built index in the order in
    which that call finds its candidate set, the separator), the run
    finishes and the input is not read. *)
Theorem main_test_mode set_iters argv file listing inputs :
  argv !! 1 = Some "--test" →
  main set_iters argv file listing true inputs
  = mkRun
      (stdout (build_index listing (__init__ "webpages" file)).2
       ++ ["Test output saved to output.txt"])
      (Some (List.concat
         (imap (λ i q, ("Query: '" +:+ q +:+ "'")
                       :: answer_lines (set_iters i)
                            (build_index listing (__init__ "webpages" file)).2 q
                       ++ [newline +:+ repeat_string "=" 60 +:+ newline])
            test_queries)))
      Finished inputs.
Proof.
  intros Harg. unfold main.
  rewrite (bool_decide_eq_true_2 (argv !! 1 = Some "--test")) by done.
  rewrite bool_decide_eq_true_2 by (by eapply lookup_lt_Some).
  cbv zeta. simpl andb. cbv iota.
  set (st := (build_index listing (__init__ "webpages" file)).2).
  f_equal. f_equal.
  rewrite test_loop_transcript.
  - simpl stdout.
    rewrite (imap_ext _
      (λ i q, ("Query: '" +:+ q +:+ "'") :: answer_lines (set_iters i) st q
              ++ [newline +:+ repeat_string "=" 60 +:+ newline])
      test_queries); [done|].
    intros i q _. reflexivity.
  - apply (wf_ext st); [done | done |].
    apply build_index_wf, init_file_wf.
Qed.

(** X28.  Without [--test] as the first argument (no argument, another
    one, or [--test] further on) the program runs a session: with [exit]
    typed it finishes, leaves the lines typed after it unread, writes no
    file, and the console holds the output of the session, which ends
    with the farewell. *)
Theorem main_interactive_mode set_iters argv file listing writable qs e rest :
  argv !! 1 ≠ Some "--test" →
  Forall (λ q, lower q ≠ "exit") qs → lower e = "exit" →
  ended (main set_iters argv file listing writable (qs ++ e :: rest)) = Finished
  ∧ unread (main set_iters argv file listing writable (qs ++ e :: rest)) = rest
  ∧ output_txt (main set_iters argv file listing writable (qs ++ e :: rest)) = None
  ∧ console (main set_iters argv file listing writable (qs ++ e :: rest))
    = stdout (run_interactive set_iters listing (qs ++ e :: rest)
                (__init__ "webpages" file)).2
  ∧ last (console (main set_iters argv file listing writable (qs ++ e :: rest)))
    = Some msg_goodbye.
Proof.
  intros Harg Hqs He. unfold main.
  rewrite (bool_decide_eq_false_2 (argv !! 1 = Some "--test")) by done.
  rewrite andb_false_r. cbv zeta.
  rewrite run_interactive_unfold.
  destruct (interactive_loop_exit set_iters 0 qs e rest
    (print "Type 'exit' to quit"
       (print msg_banner
          (build_index listing (__init__ "webpages" file)).2).2).2
    Hqs He) as (st' & -> & _ & _ & Hl).
  done.
Qed.

(** ** The further properties on examples *)

Lemma engine_ex_wf : wf engine_ex.
Proof. apply parse_all_wf, init_wf. Qed.

Lemma tokens_split_at_separator_witness :
  document_tokens _load_stopwords ("cloud" +:+ String "," " security")
  = (document_tokens _load_stopwords "cloud"
     ++ document_tokens _load_stopwords " security")%list.
Proof.
  apply (tokens_split_at_separator _load_stopwords "," "cloud" " security");
    reflexivity.
Defined.

Lemma terms_are_normal_witness :
  ("cloud" ∉ _load_stopwords) ∧ 1 < String.length "cloud"
  ∧ all_chars lower_word "cloud" = true ∧ lower "cloud" = "cloud".
Proof.
  apply (terms_are_normal _load_stopwords "The Cloud" "cloud").
  - reflexivity.
  - vm_compute. left.
Defined.

Lemma punctuation_only_query_witness :
  search elements "?!" engine_ex = ([], (print msg_all_stopwords engine_ex).2).
Proof.
  apply (punctuation_only_query elements "?!" engine_ex).
  - reflexivity.
  - vm_compute. discriminate.
  - reflexivity.
Defined.

Lemma index_keys_are_terms_witness :
  ("cloud" ∉ _load_stopwords) ∧ 1 < String.length "cloud"
  ∧ all_chars lower_word "cloud" = true
  ∧ ∃ S, heap (parse_all corpus_ex (init "webpages" ∅)) !! 1%positive = Some S
         ∧ S ≠ ∅.
Proof.
  apply (index_keys_are_terms "webpages" ∅ corpus_ex "cloud" 1%positive).
  - intros d text Hin. unfold corpus_ex in Hin.
    repeat (apply elem_of_cons in Hin as [[= -> ->]|Hin]; [reflexivity|]).
    by apply elem_of_nil in Hin.
  - vm_compute. reflexivity.
Defined.

Lemma term_frequency_exact_witness :
  frequency (parse_all corpus_ex (init "webpages" ∅)) "cloud" "docA.html"
  = if decide ("cloud" ∈ document_tokens _load_stopwords "cloud security threats")
    then Some (occurrences "cloud"
                 (document_tokens _load_stopwords "cloud security threats"))
    else None.
Proof.
  apply (term_frequency_exact "webpages" ∅ corpus_ex "docA.html"
           "cloud security threats" "cloud").
  - apply (bool_decide_unpack _). vm_compute. exact I.
  - unfold corpus_ex. left.
Defined.

Lemma parse_document_touches_own_terms_witness :
  ("docA.html" ≠ "docD.html" →
     frequency (parse_document "docD.html" (Text "zero trust") engine_ex).2
       "cloud" "docA.html"
     = frequency engine_ex "cloud" "docA.html")
  ∧ (¬ "cloud" ∈ document_tokens (stopwords (self engine_ex)) "zero trust" →
     frequency (parse_document "docD.html" (Text "zero trust") engine_ex).2
       "cloud" "docA.html"
     = frequency engine_ex "cloud" "docA.html"
     ∧ posting (parse_document "docD.html" (Text "zero trust") engine_ex).2 "cloud"
       = posting engine_ex "cloud").
Proof.
  apply (parse_document_touches_own_terms "docD.html" "zero trust" engine_ex
           "cloud" "docA.html").
  exact engine_ex_wf.
Defined.

Lemma build_index_twice_witness :
  self (build_index listing_ex
          (build_index listing_ex (init "webpages" ∅)).2).2
    = self (build_index listing_ex (init "webpages" ∅)).2
  ∧ heap (build_index listing_ex
            (build_index listing_ex (init "webpages" ∅)).2).2
    = heap (build_index listing_ex (init "webpages" ∅)).2.
Proof.
  apply (build_index_twice listing_ex (init "webpages" ∅)).
  apply (bool_decide_unpack _). vm_compute. exact I.
Defined.

(** A second engine for the examples: the same corpus under another
    directory name and with a URL mapping. *)
Lemma engine_ex_mirror :
  let st2 := parse_all corpus_ex
               (init "mirror" {["docA.html" := "http://a.example/"]}) in
  wf st2
  ∧ stopwords (self engine_ex) = stopwords (self st2)
  ∧ (∀ t, posting engine_ex t = posting st2 t)
  ∧ (∀ t d, frequency engine_ex t d = frequency st2 t d).
Proof.
  cbv zeta. unfold engine_ex. split_and!.
  - apply parse_all_wf, init_wf.
  - by rewrite !parse_all_stopwords.
  - intros t. rewrite !parse_all_posting by apply init_wf.
    by rewrite !init_posting.
  - intros t d.
    assert (NoDup corpus_ex.*1) as Hnd
      by (apply (bool_decide_unpack _); vm_compute; exact I).
    assert (∀ dir urls, frequency (init dir urls) t d = None) as Hnone.
    { intros dir urls. unfold frequency. simpl. by rewrite lookup_empty. }
    destruct (decide (d ∈ corpus_ex.*1)) as [Hin|Hn].
    + apply list_elem_of_fmap in Hin as ([d' content] & -> & Hin).
      assert (∃ text, content = Text text) as [text ->].
      { unfold corpus_ex in Hin.
        repeat (apply elem_of_cons in Hin as [[= _ ->]|Hin]; [eauto|]).
        by apply elem_of_nil in Hin. }
      cbn [fst].
      rewrite (parse_all_frequency corpus_ex (init "webpages" ∅) d' text t)
        by done.
      by rewrite (parse_all_frequency corpus_ex
                    (init "mirror" {["docA.html" := "http://a.example/"]})
                    d' text t) by done.
    + by rewrite !parse_all_frequency_other, !Hnone by done.
Qed.

Lemma reverse_elements_perm (X : gset string) : reverse (elements X) ≡ₚ elements X.
Proof. apply reverse_Permutation. Qed.

Lemma search_determined_by_index_witness :
  (search elements "cloud" engine_ex).1
    ≡ₚ (search (λ X, reverse (elements X)) "cloud"
          (parse_all corpus_ex
             (init "mirror" {["docA.html" := "http://a.example/"]}))).1
  ∧ ∃ out,
      stdout (search elements "cloud" engine_ex).2 = (stdout engine_ex ++ out)%list
      ∧ stdout (search (λ X, reverse (elements X)) "cloud"
                  (parse_all corpus_ex
                     (init "mirror" {["docA.html" := "http://a.example/"]}))).2
        = (stdout (parse_all corpus_ex
                     (init "mirror" {["docA.html" := "http://a.example/"]}))
           ++ out)%list.
Proof.
  apply (search_determined_by_index elements (λ X, reverse (elements X)) "cloud"
           engine_ex
           (parse_all corpus_ex
              (init "mirror" {["docA.html" := "http://a.example/"]}))).
  - exact elements_perm.
  - exact reverse_elements_perm.
  - exact engine_ex_wf.
  - apply engine_ex_mirror.
  - apply engine_ex_mirror.
  - apply engine_ex_mirror.
  - apply engine_ex_mirror.
Defined.

(** The two orders of the example do differ on the candidates of the
    query, and so do the lists returned. *)
Example search_orders_differ :
  (search elements "cloud" engine_ex).1
  ≠ (search (λ X, reverse (elements X)) "cloud" engine_ex).1.
Proof. vm_compute. discriminate. Qed.

Lemma search_after_search_witness :
  (search elements "security" (search elements "cloud" engine_ex).2).1
    = (search elements "security" engine_ex).1
  ∧ ∃ out,
      stdout (search elements "security" (search elements "cloud" engine_ex).2).2
        = (stdout (search elements "cloud" engine_ex).2 ++ out)%list
      ∧ stdout (search elements "security" engine_ex).2
        = (stdout engine_ex ++ out)%list.
Proof.
  apply (search_after_search elements "cloud" "security" engine_ex).
  exact engine_ex_wf.
Defined.

Lemma search_returns_candidates_witness :
  NoDup (search elements "cloud security" engine_ex).1.*1
  ∧ ∀ doc, doc ∈ (search elements "cloud security" engine_ex).1.*1
           ↔ ∀ u, u ∈ query_terms (stopwords (self engine_ex)) "cloud security" →
                  ∃ S, posting engine_ex u = Some S ∧ doc ∈ S.
Proof.
  apply (search_returns_candidates elements elements_perm
           "cloud security" engine_ex).
  - vm_compute. discriminate.
  - intros u Hu.
    assert (query_terms (stopwords (self engine_ex)) "cloud security"
            = ["cloud"; "security"]) as Hq by (vm_compute; reflexivity).
    rewrite Hq in Hu.
    assert (is_Some (posting engine_ex "cloud")) as Hc
      by (apply (bool_decide_unpack _); vm_compute; exact I).
    assert (is_Some (posting engine_ex "security")) as Hs
      by (apply (bool_decide_unpack _); vm_compute; exact I).
    apply elem_of_cons in Hu as [->|Hu]; [exact Hc|].
    apply list_elem_of_singleton in Hu as ->. exact Hs.
Defined.

Lemma two_term_score_witness :
  ("docA.html",
   occurrences "cloud" (document_tokens _load_stopwords "cloud security threats")
   + occurrences "security"
       (document_tokens _load_stopwords "cloud security threats"))
    ∈ (search elements ("cloud" +:+ String " " "security")
         (parse_all corpus_ex (init "webpages" ∅))).1.
Proof.
  apply (two_term_score elements elements_perm "webpages" ∅ corpus_ex
           "docA.html" "cloud security threats" "cloud" "security").
  - apply (bool_decide_unpack _). vm_compute. exact I.
  - unfold corpus_ex. left.
  - vm_compute. left.
  - vm_compute. right. left.
Defined.


Lemma load_url_line_skips_witness :
  load_url_line "  // file name, then URL" (init "webpages" ∅)
  = (tt, init "webpages" ∅).
Proof.
  apply (load_url_line_skips "  // file name, then URL" (init "webpages" ∅)).
  right. left. reflexivity.
Defined.

Lemma display_results_row_witness :
  stdout (display_results [("docA.html", 2); ("docC.html", 1)] engine_ex).2
    !! (List.length (stdout engine_ex) + 2 + 2 * 1)
    = Some (pretty 2 +:+ ". " +:+ "docC.html" +:+ " (Relevance score: "
            +:+ pretty 1 +:+ ")")
  ∧ stdout (display_results [("docA.html", 2); ("docC.html", 1)] engine_ex).2
      !! (List.length (stdout engine_ex) + 2 + 2 * 1 + 1)
    = Some ("   URL: "
            +:+ default url_not_available
                  (document_urls (self engine_ex) !! "docC.html")).
Proof.
  apply (display_results_row [("docA.html", 2); ("docC.html", 1)] engine_ex
           1 "docC.html" 1).
  reflexivity.
Defined.

Lemma run_interactive_exits_witness :
  (run_interactive (λ _, elements) listing_ex (["cloud"] ++ "Exit" :: ["threats"])
     (init "webpages" ∅)).1 = (Finished, ["threats"])
  ∧ self (run_interactive (λ _, elements) listing_ex
            (["cloud"] ++ "Exit" :: ["threats"]) (init "webpages" ∅)).2
    = self (build_index listing_ex (init "webpages" ∅)).2
  ∧ last (stdout (run_interactive (λ _, elements) listing_ex
                    (["cloud"] ++ "Exit" :: ["threats"]) (init "webpages" ∅)).2)
    = Some msg_goodbye.
Proof.
  apply (run_interactive_exits (λ _, elements) listing_ex ["cloud"] "Exit"
           ["threats"] (init "webpages" ∅)).
  - repeat constructor. vm_compute. discriminate.
  - reflexivity.
Defined.

Lemma run_interactive_end_of_input_witness :
  (run_interactive (λ _, elements) listing_ex ["cloud"] (init "webpages" ∅)).1
    = (EOFError, [])
  ∧ self (run_interactive (λ _, elements) listing_ex ["cloud"]
            (init "webpages" ∅)).2
    = self (build_index listing_ex (init "webpages" ∅)).2
  ∧ last (stdout (run_interactive (λ _, elements) listing_ex ["cloud"]
                    (init "webpages" ∅)).2) = Some prompt.
Proof.
  apply (run_interactive_end_of_input (λ _, elements) listing_ex ["cloud"]
           (init "webpages" ∅)).
  repeat constructor. vm_compute. discriminate.
Defined.


Lemma main_test_mode_witness :
  main (λ k X, if Nat.even k then elements X else reverse (elements X))
    ["search_engine.py"; "--test"] Missing listing_ex true ["cloud"]
  = mkRun
      (stdout (build_index listing_ex (__init__ "webpages" Missing)).2
       ++ ["Test output saved to output.txt"])
      (Some (List.concat
         (imap (λ i q, ("Query: '" +:+ q +:+ "'")
                       :: answer_lines
                            ((λ k X, if Nat.even k then elements X
                                     else reverse (elements X)) i)
                            (build_index listing_ex (__init__ "webpages" Missing)).2 q
                       ++ [newline +:+ repeat_string "=" 60 +:+ newline])
            test_queries)))
      Finished ["cloud"].
Proof.
  apply (main_test_mode (λ k X, if Nat.even k then elements X
                                else reverse (elements X))
           ["search_engine.py"; "--test"] Missing listing_ex ["cloud"]).
  reflexivity.
Defined.

Lemma main_interactive_mode_witness :
  ended (main (λ _, elements) ["search_engine.py"] Missing listing_ex true
           (["cloud"] ++ "exit" :: ["threats"])) = Finished
  ∧ unread (main (λ _, elements) ["search_engine.py"] Missing listing_ex true
              (["cloud"] ++ "exit" :: ["threats"])) = ["threats"]
  ∧ output_txt (main (λ _, elements) ["search_engine.py"] Missing listing_ex true
                  (["cloud"] ++ "exit" :: ["threats"])) = None
  ∧ console (main (λ _, elements) ["search_engine.py"] Missing listing_ex true
               (["cloud"] ++ "exit" :: ["threats"]))
    = stdout (run_interactive (λ _, elements) listing_ex
                (["cloud"] ++ "exit" :: ["threats"])
                (__init__ "webpages" Missing)).2
  ∧ last (console (main (λ _, elements) ["search_engine.py"] Missing listing_ex
                     true (["cloud"] ++ "exit" :: ["threats"])))
    = Some msg_goodbye.
Proof.
  apply (main_interactive_mode (λ _, elements) ["search_engine.py"] Missing
           listing_ex true ["cloud"] "exit" ["threats"]).
  - vm_compute. discriminate.
  - repeat constructor. vm_compute. discriminate.
  - reflexivity.
Defined.

Example main_test_mode_ex :
  console (main (λ _, elements) ["search_engine.py"; "--test"; "more"] Missing
             [("a.html", Text "cloud threats")] true ["unread"])
  = ["URL mapping file not found. URLs will not be displayed.";
     "Building index from documents in 'webpages'...";
     "Indexed document: a.html with 2 unique terms";
     "Indexing complete. 1 documents indexed with 2 unique terms.";
     "Test output saved to output.txt"].
Proof. vm_compute. reflexivity. Qed.

Example main_interactive_ex :
  drop 4 (console (main (λ _, elements) ["search_engine.py"]
            (Opened ["a.html http://a.example/"; "// comment"] None)
            [("a.html", Text "cloud threats")] true ["Cloud"; "EXIT"; "unread"]))
  = [msg_banner; "Type 'exit' to quit";
     prompt; newline +:+ "Found 1 matching documents:";
     repeat_string "-" 50;
     "1. a.html (Relevance score: 1)"; "   URL: http://a.example/";
     repeat_string "-" 50; prompt; msg_goodbye].
Proof. vm_compute. reflexivity. Qed.

(** The banner of line 153 starts with a line feed and U+1F50D, four bytes
    in UTF-8. *)
Example msg_banner_bytes :
  (λ s, N.to_nat (code s)) <$> take 5 (list_ascii_of_string msg_banner)
  = [10; 240; 159; 148; 141]%nat.
Proof. reflexivity. Qed.
